(** * bskyunroll: a shallow embedding of [src/index.mjs]

    The service unrolls a Bluesky self-thread: it resolves the author of a
    post, fetches the reply tree of the post, keeps the replies the author
    wrote to themself, and memoises the result per input URL.

    The program works on untyped values that come out of [JSON.parse], so
    the embedding works on a type of JSON values and writes property access,
    truthiness, the two equalities and iteration the way JavaScript defines
    them.  A [TypeError] is an outcome of its own. *)

From Stdlib Require Import ZArith Ascii String List Bool Lia.
From stdpp Require Import base option gmap strings.
Import ListNotations.

Local Open Scope Z_scope.
Local Open Scope list_scope.
Set Warnings "-register-all".

(** ** JavaScript values *)

(** The values [JSON.parse] can build, and [undefined].  Numbers are the
    integer-valued ones (the byte offsets of a facet are such; fractions and
    their rounding are outside the model); an object is its list of own
    properties in insertion order, a property being read at its first
    occurrence. *)
Inductive value : Type :=
| VUndefined
| VNull
| VBool (b : bool)
| VNum (n : Z)
| VStr (s : string)
| VArr (items : list value)
| VObj (fields : list (string * value)).

(** What an evaluation ends in: a value, a thrown exception (every exception
    this program can raise on JSON values is a [TypeError], and nothing in
    the traversal catches one), or the exhaustion of the fuel that bounds
    the recursion of the model. *)
Inductive outcome (A : Type) : Type :=
| Ret (a : A)
| Throw
| OutOfFuel.
Arguments Ret {A} a.
Arguments Throw {A}.
Arguments OutOfFuel {A}.

Definition bind {A B} (m : outcome A) (k : A -> outcome B) : outcome B :=
  match m with
  | Ret a => k a
  | Throw => Throw
  | OutOfFuel => OutOfFuel
  end.

Declare Scope js_scope.
Delimit Scope js_scope with js.
Notation "'let*' x := m 'in' k" := (bind m (fun x => k))
  (at level 10, x name, m at level 100, k at level 200) : js_scope.
Local Open Scope js_scope.

(** The built-in conversions of the language that the source relies on but
    does not define.  The development is parametric in them: nothing proved
    below depends on how a number prints or on what a coercing comparison
    answers. *)
Class Builtins : Type := {
  (** [x == y] for operands of different types, neither of them [null] or
      [undefined] (the cases in which [==] coerces an operand). *)
  coerce_eq : value -> value -> bool;
  (** [x > 0] for a string or an object [x]. *)
  coerce_gt0 : value -> bool;
  (** [String(n)] for a number. *)
  number_to_string : Z -> string;
  (** [String.prototype.trim]. *)
  trim : string -> string
}.

Definition nullish (v : value) : bool :=
  match v with
  | VUndefined | VNull => true
  | _ => false
  end.

(** [Boolean(v)]. *)
Definition truthy (v : value) : bool :=
  match v with
  | VUndefined | VNull => false
  | VBool b => b
  | VNum n => negb (n =? 0)
  | VStr s => negb (String.eqb s "")
  | VArr _ | VObj _ => true
  end.

Fixpoint own (fields : list (string * value)) (k : string) : option value :=
  match fields with
  | [] => None
  | (k', v) :: rest => if String.eqb k' k then Some v else own rest k
  end.

(** [o.k] on a value that is neither [null] nor [undefined], for the
    property names the program reads (none of them is an array index or a
    member of a built-in prototype other than [length]). *)
Definition prop (o : value) (k : string) : value :=
  match o with
  | VObj fields => match own fields k with Some v => v | None => VUndefined end
  | VArr items => if String.eqb k "length" then VNum (Z.of_nat (length items)) else VUndefined
  | VStr s => if String.eqb k "length" then VNum (Z.of_nat (String.length s)) else VUndefined
  | _ => VUndefined
  end.

(** [o.k]: reading a property of [null] or [undefined] throws. *)
Definition get (o : value) (k : string) : outcome value :=
  if nullish o then Throw else Ret (prop o k).

(** [o.k1.k2...kn], read left to right. *)
Fixpoint get_path (o : value) (ks : list string) : outcome value :=
  match ks with
  | [] => Ret o
  | k :: ks' => let* o' := get o k in get_path o' ks'
  end.

(** [x === y].  Two objects are the same only when they are the same
    reference, and the operands the program compares sit at different
    places of one freshly parsed tree, so two objects never are. *)
Definition strict_eq (x y : value) : bool :=
  match x, y with
  | VUndefined, VUndefined => true
  | VNull, VNull => true
  | VBool a, VBool b => Bool.eqb a b
  | VNum a, VNum b => a =? b
  | VStr a, VStr b => String.eqb a b
  | _, _ => false
  end.

(** [x == y]. *)
Definition loose_eq `{Builtins} (x y : value) : bool :=
  match x, y with
  | (VUndefined | VNull), (VUndefined | VNull) => true
  | (VUndefined | VNull), _ => false
  | _, (VUndefined | VNull) => false
  | VBool a, VBool b => Bool.eqb a b
  | VNum a, VNum b => a =? b
  | VStr a, VStr b => String.eqb a b
  | (VArr _ | VObj _), (VArr _ | VObj _) => false
  | _, _ => coerce_eq x y
  end.

(** [x > 0]. *)
Definition gt0 `{Builtins} (x : value) : bool :=
  match x with
  | VUndefined | VNull => false
  | VBool b => b
  | VNum n => 0 <? n
  | _ => coerce_gt0 x
  end.

(** [String(v)], the conversion a template literal applies. *)
Fixpoint to_string `{Builtins} (v : value) : string :=
  match v with
  | VUndefined => "undefined"
  | VNull => "null"
  | VBool true => "true"
  | VBool false => "false"
  | VNum n => number_to_string n
  | VStr s => s
  | VArr items =>
      (fix join (l : list value) : string :=
         match l with
         | [] => ""
         | x :: rest =>
             let sx := match x with
                       | VUndefined | VNull => ""
                       | _ => to_string x
                       end in
             match rest with
             | [] => sx
             | _ :: _ => sx +:+ "," +:+ join rest
             end
         end) items
  | VObj _ => "[object Object]"
  end.

(** The decimal spelling of an array index. *)
Definition digit (n : nat) : ascii := ascii_of_nat (48 + n mod 10).

Fixpoint index_digits (fuel n : nat) (acc : string) : string :=
  match fuel with
  | O => acc
  | S fuel' =>
      let acc' := String (digit n) acc in
      if Nat.ltb n 10 then acc' else index_digits fuel' (n / 10) acc'
  end.

Definition index_key (n : nat) : string := index_digits (S n) n "".

(** [Object.keys(v)]. *)
Definition keys (v : value) : list string :=
  match v with
  | VObj fields => map fst fields
  | VArr items => map index_key (seq 0 (length items))
  | VStr s => map index_key (seq 0 (String.length s))
  | _ => []
  end.

(** [l.includes(k)] on a list of strings. *)
Definition includes (l : list string) (k : string) : bool :=
  existsb (fun k' => String.eqb k' k) l.

(** The values a [for ... of] loop runs over: the items of an array, the
    characters of a string; anything else JSON can hold is not iterable. *)
Definition iterate (v : value) : outcome (list value) :=
  match v with
  | VArr items => Ret items
  | VStr s => Ret (map (fun c => VStr (String c "")) (list_ascii_of_string s))
  | _ => Throw
  end.

(** A loop body run over a list, left to right, threading the state of the
    loop; the first exception ends it. *)
Fixpoint for_of {S : Type} (l : list value) (body : value -> S -> outcome S) (s : S)
  : outcome S :=
  match l with
  | [] => Ret s
  | x :: rest => let* s' := body x s in for_of rest body s'
  end.

(** [s.split("/")] on a string: never empty. *)
Fixpoint split_slash (s : string) : list string :=
  match s with
  | EmptyString => [EmptyString]
  | String c rest =>
      if Ascii.eqb c "/" then EmptyString :: split_slash rest
      else match split_slash rest with
           | [] => [String c EmptyString]
           | seg :: segs => String c seg :: segs
           end
  end.

(** [v.split("/")]: only a string has the method. *)
Definition split (v : value) : outcome (list string) :=
  match v with
  | VStr s => Ret (split_slash s)
  | _ => Throw
  end.

(** [l.pop()]: the last element, [undefined] on the empty array. *)
Fixpoint pop (l : list string) : value :=
  match l with
  | [] => VUndefined
  | [s] => VStr s
  | _ :: rest => pop rest
  end.

(** ** The content normaliser *)

Record FacetLink : Type := {
  fl_uri : value;
  fl_start : value;
  fl_end : value
}.

Record NormalizedPost : Type := {
  np_uri : value;
  np_text : value;
  np_embed : list string;
  np_facets : list FacetLink
}.

Section Program.
Context `{Builtins}.

(** [extractEmbeds(embeds, didPlc)], lines 78-91.  [imgs] is the state of
    the loop. *)
Definition extractEmbeds (embeds didPlc : value) : outcome (list string) :=
  if truthy embeds && includes (keys embeds) "$type" then
    if strict_eq (prop embeds "$type") (VStr "app.bsky.embed.images") then
      let* images := iterate (prop embeds "images") in
      for_of images
        (fun image imgs =>
           let* mimeType := get_path image ["image"; "mimeType"] in
           let* parts := split mimeType in
           let mime := pop parts in
           let* link := get_path image ["image"; "ref"; "$link"] in
           Ret (imgs ++ [ "https://cdn.bsky.app/img/feed_thumbnail/plain/"
                          +:+ to_string didPlc +:+ "/" +:+ to_string link
                          +:+ "@" +:+ to_string mime ]))
        []
    else Ret []
  else Ret [].

(** [arr.filter(pred)] with a predicate that can throw. *)
Fixpoint filter_js (pred : value -> outcome bool) (l : list value) : outcome (list value) :=
  match l with
  | [] => Ret []
  | x :: rest =>
      let* keep := pred x in
      let* rest' := filter_js pred rest in
      Ret (if keep then x :: rest' else rest')
  end.

(** [v.filter(pred)]: only an array has the method. *)
Definition filter_method (v : value) (pred : value -> outcome bool) : outcome (list value) :=
  match v with
  | VArr items => filter_js pred items
  | _ => Throw
  end.

(** [extractFacets(facets)], lines 98-115.  [fcts] is the state of the two
    loops. *)
Definition extractFacets (facets : value) : outcome (list FacetLink) :=
  if truthy facets then
    let* items := iterate facets in
    for_of items
      (fun facet fcts =>
         let* fs := get facet "features" in
         let* features :=
           filter_method fs
             (fun d => let* t := get d "$type" in
                       Ret (strict_eq t (VStr "app.bsky.richtext.facet#link"))) in
         if (0 <? Z.of_nat (length features)) then
           for_of features
             (fun feature fcts =>
                let* uri := get feature "uri" in
                let* byteStart := get_path facet ["index"; "byteStart"] in
                let* byteEnd := get_path facet ["index"; "byteEnd"] in
                Ret (fcts ++ [ {| fl_uri := uri; fl_start := byteStart; fl_end := byteEnd |} ]))
             fcts
         else Ret fcts)
      []
  else Ret [].

(** ** The thread reconstructor *)

(** [traverseReplies(replyArray, pcid)], lines 127-149, the closure of
    [extractReplies] over [cid], [authorDid] and the array [replies], which
    is threaded as the state.  [fuel] bounds the depth of the recursion. *)
Fixpoint traverseReplies (fuel : nat) (cid authorDid : value)
    (replyArray pcid : value) (replies : list NormalizedPost)
  : outcome (list NormalizedPost) :=
  match fuel with
  | O => OutOfFuel
  | S fuel' =>
      match replyArray with
      | VArr items =>
          for_of items
            (fun reply replies =>
               let* did := get_path reply ["post"; "author"; "did"] in
               if strict_eq did authorDid then
                 let* rootCid := get_path reply ["post"; "record"; "reply"; "root"; "cid"] in
                 if loose_eq rootCid cid then
                   let* parentCid := get_path reply ["post"; "record"; "reply"; "parent"; "cid"] in
                   if loose_eq parentCid pcid then
                     let* uri := get_path reply ["post"; "uri"] in
                     let* text := get_path reply ["post"; "record"; "text"] in
                     let* e := get_path reply ["post"; "record"; "embed"] in
                     let* embed := extractEmbeds e authorDid in
                     let* f := get_path reply ["post"; "record"; "facets"] in
                     let* facets := extractFacets f in
                     let replies' :=
                       replies ++ [ {| np_uri := uri; np_text := text;
                                       np_embed := embed; np_facets := facets |} ] in
                     let* rs := get reply "replies" in
                     let* more :=
                       (if truthy rs
                        then let* len := get_path reply ["replies"; "length"] in Ret (gt0 len)
                        else Ret false) in
                     if more then
                       let* rs' := get reply "replies" in
                       let* c := get_path reply ["post"; "cid"] in
                       traverseReplies fuel' cid authorDid rs' c replies'
                     else Ret replies'
                   else Ret replies
                 else Ret replies
               else Ret replies)
            replies
      | _ => Ret replies
      end
  end.

(** The nesting depth of a value: a bound on the depth of the recursion. *)
Fixpoint height (v : value) : nat :=
  match v with
  | VArr items => S (list_max (map height items))
  | VObj fields => S (list_max (map (fun kv => height (snd kv)) fields))
  | _ => O
  end.

(** [extractReplies(thread, authorDid)], lines 123-153. *)
Definition extractReplies (thread authorDid : value) : outcome (list NormalizedPost) :=
  let* cid := get_path thread ["post"; "cid"] in
  let* rs := get thread "replies" in
  let* pcid := get_path thread ["post"; "cid"] in
  traverseReplies (S (height thread)) cid authorDid rs pcid [].

(** ** The pipeline and its cache *)

(** What [fetchThread] answers: [{message}] or
    [{message: "success", author, thread}]. *)
Inductive Result : Type :=
| ErrorResult (message : string)
| ThreadResult (author : value) (thread : list NormalizedPost).

Definition message (r : Result) : string :=
  match r with
  | ErrorResult m => m
  | ThreadResult _ _ => "success"
  end.

(** The parsed page, through the one query the program makes of it. *)
Record Element : Type := { innerText : string }.
Record HTMLDocument : Type := { querySelector : string -> option Element }.

(** The outside of the program during one request: what [fetch] followed by
    [res.text()] yields for a URL ([None] when either throws), and the two
    parsers ([None] when they throw; [DOMParser] may also answer [null]). *)
Record World : Type := {
  fetch_text : string -> option string;
  parseFromString : string -> option HTMLDocument;
  JSON_parse : string -> option value
}.

(** The state the requests share: the key-value store opened at line 5 and,
    as a ghost, the URLs fetched so far.  The store is Deno's and is taken
    at its interface: a finite map in which [get] finds what the last [set]
    under the key put, and nothing expires. *)
Record State : Type := {
  kv : gmap string Result;
  requests : list string
}.

Definition kv_set (k : string) (v : Result) (st : State) : State :=
  {| kv := <[k := v]> (kv st); requests := requests st |}.

(** The state after a request to [url] has gone out. *)
Definition logged (url : string) (st : State) : State :=
  {| kv := kv st; requests := requests st ++ [url] |}.

Definition fetch (w : World) (url : string) (st : State) : option string * State :=
  (fetch_text w url, logged url st).

(** [fetchHTML(url)], lines 22-31: [null] on any exception. *)
Definition fetchHTML (w : World) (url : string) (st : State)
  : option HTMLDocument * State :=
  let '(res, st') := fetch w url st in
  match res with
  | Some html => (parseFromString w html, st')
  | None => (None, st')
  end.

(** [safeJSONParse(str)], lines 38-45: [undefined] on a syntax error. *)
Definition safeJSONParse (w : World) (str : string) : value :=
  match JSON_parse w str with
  | Some jsonValue => jsonValue
  | None => VUndefined
  end.

(** [fetchJSON(url)], lines 52-56: a failing fetch is not caught. *)
Definition fetchJSON (w : World) (url : string) (st : State) : outcome value * State :=
  let '(res, st') := fetch w url st in
  match res with
  | Some txt => (Ret (safeJSONParse w txt), st')
  | None => (Throw, st')
  end.

(** [didFromPost(postDoc)], lines 63-70. *)
Definition didFromPost (postDoc : option HTMLDocument) : value :=
  match postDoc with
  | None => VNull
  | Some doc =>
      match querySelector doc "p#bsky_did" with
      | None => VNull
      | Some didElement => VStr (trim (innerText didElement))
      end
  end.

(** Lines 185-199 of [fetchThread]: from the answer of the feed to [out]. *)
Definition reconstruct (thread : value) : outcome Result :=
  let* uri := get_path thread ["thread"; "post"; "uri"] in
  let* text := get_path thread ["thread"; "post"; "record"; "text"] in
  let* e := get_path thread ["thread"; "post"; "record"; "embed"] in
  let* did := get_path thread ["thread"; "post"; "author"; "did"] in
  let* embed := extractEmbeds e did in
  let* f := get_path thread ["thread"; "post"; "record"; "facets"] in
  let* facets := extractFacets f in
  let* t := get thread "thread" in
  let* did' := get_path thread ["thread"; "post"; "author"; "did"] in
  let* rest := extractReplies t did' in
  let replies :=
    [ {| np_uri := uri; np_text := text; np_embed := embed; np_facets := facets |} ]
      ++ rest in
  let* author := get_path thread ["thread"; "post"; "author"] in
  Ret (ThreadResult author replies).

(** The URL of the feed request, line 181. *)
Definition threadURL (did postThreadTop : value) : string :=
  "https://public.api.bsky.app/xrpc/app.bsky.feed.getPostThread?uri=at://"
  +:+ to_string did +:+ "/app.bsky.feed.post/" +:+ to_string postThreadTop.

(** [fetchThread(postURL)], lines 160-204. *)
Definition fetchThread (w : World) (postURL : string) (st : State)
  : outcome Result * State :=
  match kv st !! postURL with
  | Some entry => (Ret entry, st)
  | None =>
      let '(postDoc, st1) := fetchHTML w postURL st in
      match postDoc with
      | None => (Ret (ErrorResult "Error: Invalid URL"), st1)
      | Some _ =>
          let did := didFromPost postDoc in
          let postThreadTop := pop (split_slash postURL) in
          let '(thread, st2) := fetchJSON w (threadURL did postThreadTop) st1 in
          match (let* thread := thread in reconstruct thread) with
          | Ret out => (Ret out, kv_set postURL out st2)
          | Throw => (Throw, st2)
          | OutOfFuel => (OutOfFuel, st2)
          end
      end
  end.

(** The handler of [GET /bskyunroll], lines 206-224: the status and the
    body of the response.  The log line and [c.header()], which is given no
    header to set, leave both as they are. *)
Definition handler (w : World) (postURL : string) (st : State)
  : outcome (Z * Result) * State :=
  let '(out, st') := fetchThread w postURL st in
  (let* out := out in
   Ret (if negb (String.eqb (message out) "success") then 400 else 200, out), st').

(** ** Ghost instrumentation of the traversal

    The thread holds normalised posts, which do not say which node of the
    reply tree they come from.  [traceReplies] is [traverseReplies] with a
    ghost path: every post it pushes is paired with the node it was built
    from and with the place of that node in the tree.  Erasing the ghost
    part gives [traverseReplies] back ([traverseReplies_erase]). *)

(** The node reached from [v] by the indices [p], each taken in the
    [replies] array of the node before. *)
Fixpoint node_at (v : value) (p : list nat) : option value :=
  match p with
  | [] => Some v
  | i :: q =>
      match prop v "replies" with
      | VArr items =>
          match nth_error items i with
          | Some child => node_at child q
          | None => None
          end
      | _ => None
      end
  end.

Record visit : Type := {
  v_path : list nat;
  v_node : value;
  v_post : NormalizedPost
}.

Fixpoint for_of_from {St : Type} (i : nat) (l : list value)
    (body : nat -> value -> St -> outcome St) (s : St) : outcome St :=
  match l with
  | [] => Ret s
  | x :: rest => let* s' := body i x s in for_of_from (S i) rest body s'
  end.

(** The body of the loop of [traverseReplies] with the ghost path; [self]
    is the recursive call. *)
Definition trace_body
    (self : value -> value -> list nat -> list visit -> outcome (list visit))
    (cid authorDid pcid : value) (path : list nat)
    (i : nat) (reply : value) (visits : list visit) : outcome (list visit) :=
  let* did := get_path reply ["post"; "author"; "did"] in
  if strict_eq did authorDid then
    let* rootCid := get_path reply ["post"; "record"; "reply"; "root"; "cid"] in
    if loose_eq rootCid cid then
      let* parentCid := get_path reply ["post"; "record"; "reply"; "parent"; "cid"] in
      if loose_eq parentCid pcid then
        let* uri := get_path reply ["post"; "uri"] in
        let* text := get_path reply ["post"; "record"; "text"] in
        let* e := get_path reply ["post"; "record"; "embed"] in
        let* embed := extractEmbeds e authorDid in
        let* f := get_path reply ["post"; "record"; "facets"] in
        let* facets := extractFacets f in
        let visits' :=
          visits ++ [ {| v_path := path ++ [i]; v_node := reply;
                         v_post := {| np_uri := uri; np_text := text;
                                      np_embed := embed; np_facets := facets |} |} ] in
        let* rs := get reply "replies" in
        let* more :=
          (if truthy rs
           then let* len := get_path reply ["replies"; "length"] in Ret (gt0 len)
           else Ret false) in
        if more then
          let* rs' := get reply "replies" in
          let* c := get_path reply ["post"; "cid"] in
          self rs' c (path ++ [i]) visits'
        else Ret visits'
      else Ret visits
    else Ret visits
  else Ret visits.

Fixpoint traceReplies (fuel : nat) (cid authorDid : value)
    (replyArray pcid : value) (path : list nat) (visits : list visit)
  : outcome (list visit) :=
  match fuel with
  | O => OutOfFuel
  | S fuel' =>
      match replyArray with
      | VArr items =>
          for_of_from 0 items
            (trace_body (traceReplies fuel' cid authorDid) cid authorDid pcid path)
            visits
      | _ => Ret visits
      end
  end.

Definition traceThread (thread authorDid : value) : outcome (list visit) :=
  let* cid := get_path thread ["post"; "cid"] in
  let* rs := get thread "replies" in
  let* pcid := get_path thread ["post"; "cid"] in
  traceReplies (S (height thread)) cid authorDid rs pcid [] [].

Definition omap {A B} (f : A -> B) (m : outcome A) : outcome B :=
  match m with
  | Ret a => Ret (f a)
  | Throw => Throw
  | OutOfFuel => OutOfFuel
  end.

(** The total reading of a chain of properties, [VUndefined] where the
    chain breaks: what [get_path] returns when it returns. *)
Definition prop_path (o : value) (ks : list string) : value :=
  fold_left prop ks o.

(** [np] is the normalised post of [node] for the author [did]: the object
    built at lines 136-141 and at lines 185-190. *)
Definition normalizes (node did : value) (np : NormalizedPost) : Prop :=
  np_uri np = prop_path node ["post"; "uri"] /\
  np_text np = prop_path node ["post"; "record"; "text"] /\
  extractEmbeds (prop_path node ["post"; "record"; "embed"]) did = Ret (np_embed np) /\
  extractFacets (prop_path node ["post"; "record"; "facets"]) = Ret (np_facets np).

(** The three admission tests of lines 133-135 on a node. *)
Definition same_author (authorDid node : value) : Prop :=
  strict_eq (prop_path node ["post"; "author"; "did"]) authorDid = true.
Definition roots_at (cid node : value) : Prop :=
  loose_eq (prop_path node ["post"; "record"; "reply"; "root"; "cid"]) cid = true.
Definition replies_to (pcid node : value) : Prop :=
  loose_eq (prop_path node ["post"; "record"; "reply"; "parent"; "cid"]) pcid = true.

(** The shape of what a traversal of the array at [p] pushes: for each
    accepted item, the item, then what the traversal of its own array
    pushes under the item's [cid]. *)
Inductive Chain (p : list nat) (pcid : value) : list visit -> Prop :=
| Chain_nil : Chain p pcid []
| Chain_cons (e : visit) (k : nat) (sub rest : list visit) :
    v_path e = p ++ [k] ->
    replies_to pcid (v_node e) ->
    Chain (p ++ [k]) (prop_path (v_node e) ["post"; "cid"]) sub ->
    Chain p pcid rest ->
    Chain p pcid (e :: sub ++ rest).

(** What holds of every visit of a traversal of [thread]. *)
Definition visit_ok (thread cid authorDid : value) (e : visit) : Prop :=
  node_at thread (v_path e) = Some (v_node e) /\
  same_author authorDid (v_node e) /\
  roots_at cid (v_node e) /\
  normalizes (v_node e) authorDid (v_post e).

(** What a traversal of the [replies] of the node at [p'] adds to the
    visits: a chain under [p'] of visits that are in order. *)
Definition yields (thread cid authorDid : value)
    (self : value -> value -> list nat -> list visit -> outcome (list visit)) : Prop :=
  forall owner p' pc acc out,
    node_at thread p' = Some owner ->
    self (prop owner "replies") pc p' acc = Ret out ->
    exists new, out = acc ++ new /\ Chain p' pc new /\
                Forall (visit_ok thread cid authorDid) new.

(** [tr] is the trace of the run of [extractReplies] that returned [out]:
    the posts of [out], in order, each with the node it is the normalised
    post of and with the place of that node in [thread]. *)
Definition traced (thread authorDid : value) (out : list NormalizedPost)
    (tr : list visit) : Prop :=
  traceThread thread authorDid = Ret tr /\
  out = map v_post tr /\
  Forall (fun e => node_at thread (v_path e) = Some (v_node e) /\
                   normalizes (v_node e) authorDid (v_post e)) tr.

(** The raw nodes behind the thread: the root, then the visited nodes. *)
Definition raw_chain (thread : value) (tr : list visit) : list value :=
  thread :: map v_node tr.

(** Linearity as the specification words it: each element after the first
    replies to the element just before it, and roots at the root post. *)
Definition linear (thread : value) (tr : list visit) : Prop :=
  forall (i : nat) (n m : value),
    raw_chain thread tr !! S i = Some n ->
    raw_chain thread tr !! i = Some m ->
    prop_path n ["post"; "record"; "reply"; "parent"; "cid"] = prop_path m ["post"; "cid"] /\
    prop_path n ["post"; "record"; "reply"; "root"; "cid"] = prop_path thread ["post"; "cid"].

(** No two visits sit in the same [replies] array: no visited node, and
    not the root, has more than one accepted reply. *)
Definition unbranched (tr : list visit) : Prop :=
  forall (i j : nat) (e1 e2 : visit),
    tr !! i = Some e1 -> tr !! j = Some e2 ->
    removelast (v_path e1) = removelast (v_path e2) -> i = j.

(** Linearity up to [==]: each element after the first sits in the
    [replies] array of the element just before it and replies to it. *)
Definition linear_loosely (thread : value) (tr : list visit) : Prop :=
  forall (i : nat) (n m : value),
    raw_chain thread tr !! S i = Some n ->
    raw_chain thread tr !! i = Some m ->
    (exists k, node_at m [k] = Some n) /\
    replies_to (prop_path m ["post"; "cid"]) n.

End Program.

(** An evaluation that does not stop for lack of fuel. *)
Definition finishes {A : Type} (m : outcome A) : Prop := m <> OutOfFuel.

(** [o.k1...kn] can be read: no value on the way, the last one apart, is
    [null] or [undefined]. *)
Fixpoint readable (o : value) (ks : list string) : Prop :=
  match ks with
  | [] => True
  | k :: ks' => nullish o = false /\ readable (prop o k) ks'
  end.

(** The state after a sequence of requests, each in a world of its own. *)
Fixpoint serve `{Builtins} (calls : list (World * string)) (st : State) : State :=
  match calls with
  | [] => st
  | (w, postURL) :: rest => serve rest (snd (fetchThread w postURL st))
  end.

(** ** Reference formulations of the normaliser *)

Fixpoint no_slash (s : string) : Prop :=
  match s with
  | EmptyString => True
  | String c rest => c <> "/"%char /\ no_slash rest
  end.

(** [sub] is the last of the segments of [s] that ["/"] separates. *)
Definition last_segment (s sub : string) : Prop :=
  no_slash sub /\ (s = sub \/ exists pre, s = pre +:+ "/" +:+ sub).

(** The thumbnail of the blob [link] of the account [did]. *)
Definition thumbnail_url (did : string) (image : string * string) : string :=
  "https://cdn.bsky.app/img/feed_thumbnail/plain/"
  +:+ did +:+ "/" +:+ fst image +:+ "@" +:+ snd image.

(** An item of [embed.images] whose blob has the link [fst spec] and a MIME
    type of subtype [snd spec]. *)
Definition image_spec (image : value) (spec : string * string) : Prop :=
  prop_path image ["image"; "ref"; "$link"] = VStr (fst spec) /\
  exists mimeType, prop_path image ["image"; "mimeType"] = VStr mimeType /\
                   last_segment mimeType (snd spec).

Definition is_link (feature : value) : bool :=
  strict_eq (prop feature "$type") (VStr "app.bsky.richtext.facet#link").

Definition features_of (facet : value) : list value :=
  match prop facet "features" with
  | VArr features => features
  | _ => []
  end.

(** The links of one facet: one per link feature, in order, each with the
    byte range of the facet. *)
Definition links_of (facet : value) : list FacetLink :=
  map (fun feature =>
         {| fl_uri := prop feature "uri";
            fl_start := prop_path facet ["index"; "byteStart"];
            fl_end := prop_path facet ["index"; "byteEnd"] |})
      (List.filter is_link (features_of facet)).

(** A facet on which the extraction does not throw: it has an array of
    features, none of them [null], and an index if it has a link. *)
Definition facet_wf (facet : value) : Prop :=
  nullish facet = false /\
  (exists features, prop facet "features" = VArr features) /\
  Forall (fun d => nullish d = false) (features_of facet) /\
  (List.filter is_link (features_of facet) = [] \/ nullish (prop facet "index") = false).

(** The invariant the specification gives for a [FacetLink]. *)
Definition span_ok (start end_ : value) : Prop :=
  exists s e, start = VNum s /\ end_ = VNum e /\ 0 <= s <= e.

(** ** Sample inputs *)

(** Built-ins that never coerce: enough for inputs whose identifiers are
    strings, on which no coercion takes place. *)
Definition plain_builtins : Builtins := {|
  coerce_eq := fun _ _ => false;
  coerce_gt0 := fun _ => false;
  number_to_string := fun _ => "0"%string;
  trim := fun s => s |}.

Definition sample_post (cid did root parent : string) : value :=
  VObj [("uri"%string, VStr ("at://" +:+ cid)); ("cid"%string, VStr cid);
        ("author"%string, VObj [("did"%string, VStr did)]);
        ("record"%string,
         VObj [("text"%string, VStr ("text " +:+ cid));
               ("reply"%string,
                VObj [("root"%string, VObj [("cid"%string, VStr root)]);
                      ("parent"%string, VObj [("cid"%string, VStr parent)])])])].

Definition sample_node (cid did root parent : string) (replies : list value) : value :=
  VObj [("post"%string, sample_post cid did root parent); ("replies"%string, VArr replies)].

(** Root R by A; X by B replies to R; Y by A replies to X. *)
Definition pruned_thread : value :=
  sample_node "C0" "A" "" ""
    [sample_node "X" "B" "C0" "C0" [sample_node "Y" "A" "C0" "X" []]].

(** Root R by A with two replies of A to R, the first of which has a reply
    of A of its own. *)
Definition branching_thread : value :=
  sample_node "C0" "A" "" ""
    [sample_node "C1" "A" "C0" "C0" [sample_node "C3" "A" "C0" "C1" []];
     sample_node "C2" "A" "C0" "C0" []].

Definition sample_embed : value :=
  VObj [("$type"%string, VStr "app.bsky.embed.images");
        ("images"%string,
         VArr [VObj [("image"%string,
                      VObj [("mimeType"%string, VStr "image/jpeg");
                            ("ref"%string, VObj [("$link"%string, VStr "abc123")])])]])].

Definition sample_facet (byteStart byteEnd : Z) : value :=
  VObj [("index"%string,
         VObj [("byteStart"%string, VNum byteStart); ("byteEnd"%string, VNum byteEnd)]);
        ("features"%string,
         VArr [VObj [("$type"%string, VStr "app.bsky.richtext.facet#link");
                     ("uri"%string, VStr "https://x.test")];
               VObj [("$type"%string, VStr "app.bsky.richtext.facet#mention");
                     ("did"%string, VStr "did:plc:abc")]])].

(** A page without the marker element, and a feed that answers the request
    for the account ["null"] with an error object. *)
Definition page_without_did : HTMLDocument := {| querySelector := fun _ => None |}.

Definition feed_error : value :=
  VObj [("error"%string, VStr "InvalidRequest");
        ("message"%string, VStr "Error: uri must be a valid at-uri")].

Definition world_without_did : World := {|
  fetch_text := fun _ => Some "body"%string;
  parseFromString := fun _ => Some page_without_did;
  JSON_parse := fun _ => Some feed_error |}.

(** A world without network. *)
Definition world_offline : World := {|
  fetch_text := fun _ => None;
  parseFromString := fun _ => None;
  JSON_parse := fun _ => None |}.

(** A page that names the account ["A"] and a feed that answers with
    [thread]. *)
Definition page_of_A : HTMLDocument :=
  {| querySelector := fun sel => if String.eqb sel "p#bsky_did"
                                 then Some {| innerText := "A"%string |} else None |}.

Definition world_of (thread : value) : World := {|
  fetch_text := fun _ => Some "body"%string;
  parseFromString := fun _ => Some page_of_A;
  JSON_parse := fun _ => Some (VObj [("thread"%string, thread)]) |}.

Definition empty_state : State := {| kv := ∅; requests := [] |}.

Definition sample_url : string := "https://bsky.app/profile/a.test/post/3kabc".

Definition sample_normalized (cid : string) : NormalizedPost :=
  {| np_uri := VStr ("at://" +:+ cid); np_text := VStr ("text " +:+ cid);
     np_embed := []; np_facets := [] |}.

(** What the pipeline answers for [branching_thread], and the state it
    leaves when it starts from the empty one. *)
Definition branching_result : Result :=
  ThreadResult (VObj [("did"%string, VStr "A")])
               (map sample_normalized ["C0"; "C1"; "C3"; "C2"]%string).

Definition sample_feed_url : string :=
  "https://public.api.bsky.app/xrpc/app.bsky.feed.getPostThread?uri=at://A/app.bsky.feed.post/3kabc".

Definition branching_state : State :=
  {| kv := <[sample_url := branching_result]> ∅;
     requests := [sample_url; sample_feed_url] |}.

(** A root post without a [replies] property, as the feed wraps it. *)
Definition lone_root : value :=
  VObj [("post"%string, sample_post "C0" "A" "" "")].

Definition lone_answer : value := VObj [("thread"%string, lone_root)].

(** ** Reference formulations of the traversal and of the store *)

(** [q] leads from [v] down through items of [replies] arrays that each
    pass the three tests of lines 133-135, the third one against the [cid]
    of the node above ([pc] for the first item). *)
Fixpoint admissible `{Builtins} (cid authorDid : value) (v pc : value) (q : list nat)
  : Prop :=
  match q with
  | [] => True
  | k :: q' =>
      match prop v "replies" with
      | VArr items =>
          match nth_error items k with
          | Some x =>
              same_author authorDid x /\ roots_at cid x /\ replies_to pc x /\
              admissible cid authorDid x (prop_path x ["post"; "cid"]) q'
          | None => False
          end
      | _ => False
      end
  end.

(** What a traversal that returns has visited: every admissible place under
    the owner of the array. *)
Definition reaches `{Builtins} (thread cid authorDid : value)
    (self : value -> value -> list nat -> list visit -> outcome (list visit)) : Prop :=
  forall owner p pc acc out q,
    node_at thread p = Some owner ->
    self (prop owner "replies") pc p acc = Ret out ->
    q <> [] ->
    admissible cid authorDid owner pc q ->
    exists e, In e out /\ v_path e = p ++ q.

(** The order of a depth-first walk on places: a place comes before the
    places below it and before the places under its later siblings. *)
Fixpoint path_lt (p q : list nat) : Prop :=
  match p, q with
  | [], [] => False
  | [], _ :: _ => True
  | _ :: _, [] => False
  | a :: p', b :: q' => (a < b)%nat \/ (a = b /\ path_lt p' q')
  end.

(** Visits pushed by a traversal of the array at [p] from the index [k0]
    on: an item, the visits under it, then those of the later items. *)
Inductive Preorder (p : list nat) (k0 : nat) : list visit -> Prop :=
| Preorder_nil : Preorder p k0 []
| Preorder_cons (e : visit) (k : nat) (sub rest : list visit) :
    (k0 <= k)%nat ->
    v_path e = p ++ [k] ->
    Preorder (p ++ [k]) 0 sub ->
    Preorder p (S k) rest ->
    Preorder p k0 (e :: sub ++ rest).

Definition orders
    (self : value -> value -> list nat -> list visit -> outcome (list visit)) : Prop :=
  forall arr pc p acc out,
    self arr pc p acc = Ret out ->
    exists new, out = acc ++ new /\ Preorder p 0 new.


(** A store that holds successes only. *)
Definition store_ok (st : State) : Prop :=
  forall k r, kv st !! k = Some r -> exists author thread, r = ThreadResult author thread.

(** A reply array with an item that has no [post], as the feed gives for a
    reply that is blocked or gone. *)
Definition thread_with_blocked_reply : value :=
  VObj [("post"%string, sample_post "C0" "A" "" "");
        ("replies"%string,
         VArr [sample_node "C1" "A" "C0" "C0" [];
               VObj [("$type"%string, VStr "app.bsky.feed.defs#blockedPost");
                     ("uri"%string, VStr "at://X"); ("blocked"%string, VBool true)]])].


(** A world in which the page names the account ["A"] and the feed answers
    with something that is not JSON. *)
Definition world_bad_json : World := {|
  fetch_text := fun _ => Some "body"%string;
  parseFromString := fun _ => Some page_of_A;
  JSON_parse := fun _ => None |}.

(** One step through two evaluations that run in lockstep. *)
Ltac step :=
  match goal with
  | |- context [bind ?m _] => destruct m; simpl; try reflexivity
  | |- context [if ?b then _ else _] => destruct b; simpl; try reflexivity
  end.

(** * Properties *)

Section Correctness.
Context `{Builtins}.

(** ** The evaluation monad and property access *)

Lemma bind_Ret {A B} (m : outcome A) (k : A -> outcome B) (b : B) :
  bind m k = Ret b -> exists a, m = Ret a /\ k a = Ret b.
Proof. destruct m; simpl; intros E; try discriminate. eauto. Qed.

Lemma get_Ret (o : value) (k : string) (v : value) :
  get o k = Ret v -> nullish o = false /\ v = prop o k.
Proof.
  unfold get. destruct (nullish o); intros E; [discriminate|].
  injection E as <-. auto.
Qed.

Lemma get_path_Ret (ks : list string) :
  forall (o v : value), get_path o ks = Ret v -> v = prop_path o ks.
Proof.
  induction ks as [|k ks IH]; simpl; intros o v E.
  - congruence.
  - apply bind_Ret in E as (o' & E1 & E2).
    apply get_Ret in E1 as [_ ->]. now apply IH.
Qed.

Lemma strict_eq_true (x y : value) : strict_eq x y = true -> x = y.
Proof.
  destruct x, y; simpl; intros E; try discriminate; auto.
  - apply Bool.eqb_prop in E. now subst.
  - apply Z.eqb_eq in E. now subst.
  - apply String.eqb_eq in E. now subst.
Qed.

Lemma loose_eq_strings (a b : string) :
  loose_eq (VStr a) (VStr b) = true -> a = b.
Proof. simpl. apply String.eqb_eq. Qed.

(** ** Erasure of the ghost path *)

Lemma for_of_erase {S T : Type} (f : T -> S)
    (body : value -> S -> outcome S) (gbody : nat -> value -> T -> outcome T) :
  (forall i x t, body x (f t) = omap f (gbody i x t)) ->
  forall l i t, for_of l body (f t) = omap f (for_of_from i l gbody t).
Proof.
  intros Hb l. induction l as [|x l IH]; intros i t; simpl; [reflexivity|].
  rewrite (Hb i). destruct (gbody i x t) as [t'| |]; simpl; auto.
Qed.

Lemma traverseReplies_erase (fuel : nat) (cid authorDid : value) :
  forall (replyArray pcid : value) (p : list nat) (visits : list visit),
    traverseReplies fuel cid authorDid replyArray pcid (map v_post visits)
    = omap (map v_post) (traceReplies fuel cid authorDid replyArray pcid p visits).
Proof.
  induction fuel as [|fuel IH]; intros arr pcid p visits; simpl; [reflexivity|].
  destruct arr; try reflexivity.
  apply for_of_erase. intros i x t. unfold trace_body. simpl.
  repeat step.
  all: try rewrite <- IH; rewrite map_app; reflexivity.
Qed.

Lemma extractReplies_erase (thread authorDid : value) :
  extractReplies thread authorDid = omap (map v_post) (traceThread thread authorDid).
Proof.
  unfold extractReplies, traceThread.
  destruct (get_path thread ["post"; "cid"]) as [c| |]; [|reflexivity..].
  destruct (get thread "replies") as [rs| |]; [|reflexivity..].
  apply (traverseReplies_erase _ _ _ _ _ [] []).
Qed.

(** ** The shape of a traversal *)

Lemma node_at_snoc (p : list nat) :
  forall (thread owner reply : value) (items : list value) (k : nat),
    node_at thread p = Some owner ->
    prop owner "replies" = VArr items ->
    nth_error items k = Some reply ->
    node_at thread (p ++ [k]) = Some reply.
Proof.
  induction p as [|i p IH]; simpl; intros thread owner reply items k Hn Hp Hk.
  - injection Hn as ->. now rewrite Hp, Hk.
  - destruct (prop thread "replies") as [| | | | |its|]; try discriminate.
    destruct (nth_error its i) as [child|]; try discriminate.
    eapply IH; eauto.
Qed.

Lemma trace_body_inv self (cid authorDid pcid : value) (p : list nat)
    (i : nat) (reply : value) (visits out : list visit) :
  trace_body self cid authorDid pcid p i reply visits = Ret out ->
  out = visits \/
  exists np,
    let e := {| v_path := p ++ [i]; v_node := reply; v_post := np |} in
    same_author authorDid reply /\ roots_at cid reply /\ replies_to pcid reply /\
    normalizes reply authorDid np /\
    (out = visits ++ [e] \/
     self (prop reply "replies") (prop_path reply ["post"; "cid"]) (p ++ [i])
          (visits ++ [e]) = Ret out).
Proof.
  unfold trace_body. intros E.
  apply bind_Ret in E as (did & Edid & E). apply get_path_Ret in Edid.
  destruct (strict_eq did authorDid) eqn:Hdid; [|left; congruence].
  apply bind_Ret in E as (rc & Erc & E). apply get_path_Ret in Erc.
  destruct (loose_eq rc cid) eqn:Hrc; [|left; congruence].
  apply bind_Ret in E as (pc & Epc & E). apply get_path_Ret in Epc.
  destruct (loose_eq pc pcid) eqn:Hpc; [|left; congruence].
  apply bind_Ret in E as (uri & Euri & E). apply get_path_Ret in Euri.
  apply bind_Ret in E as (text & Etext & E). apply get_path_Ret in Etext.
  apply bind_Ret in E as (e & Ee & E). apply get_path_Ret in Ee.
  apply bind_Ret in E as (embed & Eembed & E).
  apply bind_Ret in E as (f & Ef & E). apply get_path_Ret in Ef.
  apply bind_Ret in E as (facets & Efacets & E).
  apply bind_Ret in E as (rs & Ers & E). apply get_Ret in Ers as [_ Ers].
  apply bind_Ret in E as (more & Emore & E).
  right. exists {| np_uri := uri; np_text := text; np_embed := embed; np_facets := facets |}.
  subst. repeat split; auto.
  destruct more.
  - apply bind_Ret in E as (rs' & Ers' & E). apply get_Ret in Ers' as [_ ->].
    apply bind_Ret in E as (c & Ec & E). apply get_path_Ret in Ec. subst c.
    right. exact E.
  - left. congruence.
Qed.

Lemma Chain_app (p : list nat) (pcid : value) (a b : list visit) :
  Chain p pcid a -> Chain p pcid b -> Chain p pcid (a ++ b).
Proof.
  intros Ha Hb.
  induction Ha as [|p pcid e k sub rest Hp Hr Hsub _ Hrest IH]; simpl; auto.
  rewrite <- app_assoc. econstructor; eauto.
Qed.

Section Traversal.
Variables thread cid authorDid : value.

Lemma trace_loop self (owner pcid : value) (p : list nat) (items : list value) :
  yields thread cid authorDid self ->
  node_at thread p = Some owner ->
  prop owner "replies" = VArr items ->
  forall todo done acc out,
    items = done ++ todo ->
    for_of_from (length done) todo (trace_body self cid authorDid pcid p) acc = Ret out ->
    exists new, out = acc ++ new /\ Chain p pcid new /\
                Forall (visit_ok thread cid authorDid) new.
Proof.
  intros Hself Hown Hitems todo.
  induction todo as [|x todo IH]; simpl; intros done acc out Hsplit E.
  - injection E as <-. exists []. rewrite app_nil_r. repeat split; constructor.
  - apply bind_Ret in E as (acc' & Ebody & E).
    assert (Hnext : items = (done ++ [x]) ++ todo) by now rewrite <- app_assoc.
    replace (S (length done)) with (length (done ++ [x])) in E
      by (rewrite length_app; simpl; lia).
    assert (Hx : node_at thread (p ++ [length done]) = Some x).
    { eapply node_at_snoc; eauto. rewrite Hsplit.
      rewrite nth_error_app2 by lia. now rewrite Nat.sub_diag. }
    apply trace_body_inv in Ebody as [->|(np & Ha & Hr & Hp & Hn & Hout)].
    + eapply IH; eauto.
    + set (e := {| v_path := p ++ [length done]; v_node := x; v_post := np |}) in *.
      assert (Hok : visit_ok thread cid authorDid e) by (repeat split; auto; apply Hn).
      destruct Hout as [->|Hrec].
      * destruct (IH _ _ _ Hnext E) as (new & -> & Hc & Hf).
        exists (e :: [] ++ new). split; [now rewrite <- app_assoc|].
        split; [|constructor; auto].
        econstructor; eauto. constructor.
      * destruct (Hself _ _ _ _ _ Hx Hrec) as (sub & -> & Hcs & Hfs).
        destruct (IH _ _ _ Hnext E) as (new & -> & Hc & Hf).
        exists (e :: sub ++ new). split; [now rewrite <- !app_assoc|].
        split; [|constructor; auto; apply Forall_app; auto].
        econstructor; eauto.
Qed.

Lemma traceReplies_yields (fuel : nat) :
  yields thread cid authorDid (traceReplies fuel cid authorDid).
Proof.
  induction fuel as [|fuel IH]; intros owner p pc acc out Hown E; simpl in E.
  - discriminate.
  - destruct (prop owner "replies") as [| | | | |items|] eqn:Hitems;
      try (injection E as <-; exists []; rewrite app_nil_r;
           repeat split; constructor).
    eapply (trace_loop _ owner pc p items IH Hown Hitems items []); eauto.
Qed.
End Traversal.

Lemma traceThread_Chain (thread authorDid : value) (tr : list visit) :
  traceThread thread authorDid = Ret tr ->
  let cid := prop_path thread ["post"; "cid"] in
  Chain [] cid tr /\ Forall (visit_ok thread cid authorDid) tr.
Proof.
  unfold traceThread. intros E.
  apply bind_Ret in E as (cid & Ecid & E). apply get_path_Ret in Ecid.
  apply bind_Ret in E as (rs & Ers & E). apply get_Ret in Ers as [_ ->].
  apply bind_Ret in E as (pcid & Epcid & E). apply get_path_Ret in Epcid.
  subst.
  destruct (traceReplies_yields thread _ authorDid _ thread [] _ [] tr eq_refl E)
    as (new & -> & Hc & Hf).
  auto.
Qed.

Lemma Chain_paths (p : list nat) (pcid : value) (new : list visit) :
  Chain p pcid new ->
  forall e, In e new -> exists k q, v_path e = p ++ k :: q.
Proof.
  intros Hc.
  induction Hc as [|p pcid e0 k sub rest Hp Hr Hsub IHsub Hrest IHrest]; intros e Hin.
  - destruct Hin.
  - destruct Hin as [<-|Hin]; [exists k, []; auto|].
    apply in_app_or in Hin as [Hin|Hin]; auto.
    destruct (IHsub _ Hin) as (k' & q & ->).
    exists k, (k' :: q). now rewrite <- app_assoc.
Qed.

(** Every node on the way from the array's owner down to a visited node has
    been visited too. *)
Lemma Chain_prefix_closed (p : list nat) (pcid : value) (new : list visit) :
  Chain p pcid new ->
  forall e k q1 q2, In e new -> v_path e = p ++ (k :: q1) ++ q2 ->
    exists e', In e' new /\ v_path e' = p ++ k :: q1.
Proof.
  intros Hc.
  induction Hc as [|p pcid e0 k0 sub rest Hp Hr Hsub IHsub Hrest IHrest];
    intros e k q1 q2 Hin Hpath.
  - destruct Hin.
  - destruct Hin as [<-|Hin].
    + rewrite Hp in Hpath. apply app_inv_head in Hpath.
      injection Hpath as <- Hq. symmetry in Hq. apply app_eq_nil in Hq as [-> ->].
      exists e0. split; [now left | exact Hp].
    + apply in_app_or in Hin as [Hin|Hin].
      * destruct (Chain_paths _ _ _ Hsub _ Hin) as (k' & q & Hq).
        rewrite Hq, <- app_assoc in Hpath. apply app_inv_head in Hpath.
        simpl in Hpath. injection Hpath as <- Hq'.
        destruct q1 as [|k1 q1].
        { exists e0. split; [now left | exact Hp]. }
        destruct (IHsub e k1 q1 q2 Hin) as (e' & Hin' & Hp').
        { rewrite Hq. f_equal. exact Hq'. }
        exists e'. split; [right; apply in_or_app; now left|].
        now rewrite Hp', <- app_assoc.
      * destruct (IHrest e k q1 q2 Hin Hpath) as (e' & Hin' & Hp').
        exists e'. split; [right; apply in_or_app; now right | exact Hp'].
Qed.

(** A visited node replies to the node that owns the array it sits in: the
    owner of the traversed array, or a node visited before it. *)
Lemma Chain_parent (p : list nat) (pcid : value) (new : list visit) :
  Chain p pcid new ->
  forall (i : nat) (e : visit), new !! i = Some e ->
    exists p' k, v_path e = p' ++ [k] /\
      ((p' = p /\ replies_to pcid (v_node e)) \/
       exists (j : nat) (e' : visit), (j < i)%nat /\ new !! j = Some e' /\ v_path e' = p' /\
         replies_to (prop_path (v_node e') ["post"; "cid"]) (v_node e)).
Proof.
  intros Hc.
  induction Hc as [|p pcid e0 k0 sub rest Hp Hr Hsub IHsub Hrest IHrest]; intros i e Hi.
  - discriminate.
  - destruct i as [|i]; simpl in Hi.
    + injection Hi as <-. exists p, k0. auto.
    + apply lookup_app_Some in Hi as [Hi|[Hlen Hi]].
      * destruct (IHsub _ _ Hi) as (p' & k & Hpath & [[-> Hrep]|(j & e' & Hj & He' & Hp' & Hrep)]).
        -- exists (p ++ [k0]), k. split; auto. right.
           exists 0%nat, e0. repeat split; auto. lia.
        -- exists p', k. split; auto. right.
           exists (S j), e'. repeat split; auto; [lia|].
           simpl. apply lookup_app_Some. now left.
      * destruct (IHrest _ _ Hi) as (p' & k & Hpath & [[-> Hrep]|(j & e' & Hj & He' & Hp' & Hrep)]).
        -- exists p, k. auto.
        -- exists p', k. split; auto. right.
           exists (S (length sub + j)), e'. repeat split; auto; [lia|].
           simpl. apply lookup_app_Some. right. split; [lia|].
           now replace (length sub + j - length sub)%nat with j by lia.
Qed.

Lemma node_at_app (p q : list nat) :
  forall (v m : value), node_at v p = Some m -> node_at v (p ++ q) = node_at m q.
Proof.
  induction p as [|i p IH]; simpl; intros v m E.
  - now injection E as ->.
  - destruct (prop v "replies") as [| | | | |its|]; try discriminate.
    destruct (nth_error its i) as [child|]; try discriminate. auto.
Qed.

Lemma extractReplies_trace (thread authorDid : value) (out : list NormalizedPost) :
  extractReplies thread authorDid = Ret out ->
  exists tr, traceThread thread authorDid = Ret tr /\ out = map v_post tr.
Proof.
  rewrite extractReplies_erase.
  destruct (traceThread thread authorDid) as [tr| |]; simpl; intros E; try discriminate.
  injection E as <-. eauto.
Qed.

Lemma extractReplies_traced (thread authorDid : value) (out : list NormalizedPost) :
  extractReplies thread authorDid = Ret out -> exists tr, traced thread authorDid out tr.
Proof.
  intros Hout. destruct (extractReplies_trace _ _ _ Hout) as (tr & Htr & ->).
  exists tr. split; [exact Htr|]. split; [reflexivity|].
  destruct (traceThread_Chain _ _ _ Htr) as [_ Hok].
  eapply List.Forall_impl; [|exact Hok]. intros e (Hnode & _ & _ & Hnorm). auto.
Qed.

(** ** The reconstructed thread *)

(** C1. A reply whose author is not the root author is not in the
    reconstructed thread, and neither is any node below it, whoever wrote
    it: no post of the thread comes from a place at or under the place [p]
    of such a reply. *)
Theorem C1_foreign_reply_and_subtree_excluded
    (thread authorDid : value) (out : list NormalizedPost) (p : list nat) (x : value) :
  extractReplies thread authorDid = Ret out ->
  p <> [] ->
  node_at thread p = Some x ->
  prop_path x ["post"; "author"; "did"] <> authorDid ->
  exists tr, traced thread authorDid out tr /\
    forall e q, In e tr -> v_path e <> p ++ q.
Proof.
  intros Hout Hp Hx Hforeign.
  destruct (extractReplies_traced _ _ _ Hout) as (tr & Htraced).
  exists tr. split; [exact Htraced|]. destruct Htraced as (Htr & _ & _).
  intros e q Hin Hpath.
  destruct (traceThread_Chain _ _ _ Htr) as [Hc Hok].
  destruct p as [|k p]; [congruence|].
  destruct (Chain_prefix_closed _ _ _ Hc e k p q Hin Hpath) as (e' & Hin' & Hp').
  rewrite List.Forall_forall in Hok. destruct (Hok _ Hin') as (Hnode & Hauthor & _).
  simpl in Hp'. rewrite Hp', Hx in Hnode. injection Hnode as Hnode.
  apply Hforeign. rewrite Hnode. now apply strict_eq_true.
Qed.

Lemma lookup_map {A B : Type} (f : A -> B) (l : list A) :
  forall (i : nat) (y : B), map f l !! i = Some y -> exists x, l !! i = Some x /\ y = f x.
Proof.
  induction l as [|a l IH]; intros [|i] y E; simpl in E; try discriminate.
  - injection E as <-. exists a. auto.
  - apply IH in E as (x & Hx & ->). exists x. auto.
Qed.

(** C2, amended. Every element of the thread after the first roots at the
    root post and replies to the node in whose [replies] array it sits,
    which is the root post or an element of the thread before it (not
    always the one just before); both comparisons are those of [==]. *)
Theorem C2_replies_to_an_earlier_element
    (thread authorDid : value) (out : list NormalizedPost) :
  extractReplies thread authorDid = Ret out ->
  exists tr, traced thread authorDid out tr /\
    forall (i : nat) (n : value), raw_chain thread tr !! S i = Some n ->
      roots_at (prop_path thread ["post"; "cid"]) n /\
      exists (j : nat) (m : value) (k : nat),
        (j <= i)%nat /\ raw_chain thread tr !! j = Some m /\
        node_at m [k] = Some n /\
        replies_to (prop_path m ["post"; "cid"]) n.
Proof.
  intros Hout.
  destruct (extractReplies_traced _ _ _ Hout) as (tr & Htraced).
  exists tr. split; [exact Htraced|]. destruct Htraced as (Htr & _ & _).
  intros i n Hn.
  destruct (traceThread_Chain _ _ _ Htr) as [Hc Hok].
  rewrite Forall_lookup in Hok.
  simpl in Hn. apply lookup_map in Hn as (e & He & ->).
  destruct (Hok _ _ He) as (Hnode & _ & Hroot & _).
  split; [exact Hroot|].
  destruct (Chain_parent _ _ _ Hc _ _ He)
    as (p' & k & Hpath & [[-> Hrep]|(j & e' & Hj & He' & Hp' & Hrep)]).
  - exists 0%nat, thread, k.
    split; [lia|]. split; [reflexivity|]. split; [|exact Hrep].
    now rewrite Hpath in Hnode.
  - exists (S j), (v_node e'), k.
    split; [lia|]. split; [|split; [|exact Hrep]].
    + simpl. clear -He'. revert j He'.
      induction tr as [|a tr IH]; intros [|j] E; simpl in *; try discriminate; auto.
      now injection E as ->.
    + destruct (Hok _ _ He') as (Hnode' & _).
      rewrite Hpath, <- Hp' in Hnode.
      now rewrite (node_at_app _ _ _ _ Hnode') in Hnode.
Qed.

(** On a trace without branching, each visit directly follows the node it
    replies to. *)
Lemma Chain_unbranched (p : list nat) (pcid : value) (new : list visit) :
  Chain p pcid new -> unbranched new ->
  forall (i : nat) (e : visit), new !! i = Some e ->
    replies_to (match i with
                | O => pcid
                | S i' => match new !! i' with
                          | Some e' => prop_path (v_node e') ["post"; "cid"]
                          | None => pcid
                          end
                end) (v_node e) /\
    removelast (v_path e) = match i with
                            | O => p
                            | S i' => match new !! i' with
                                      | Some e' => v_path e'
                                      | None => p
                                      end
                            end.
Proof.
  intros Hc.
  induction Hc as [|p pcid e0 k0 sub rest Hp Hr Hsub IHsub Hrest IHrest]; intros Hu i e Hi.
  - discriminate.
  - assert (Hrest_nil : rest = []).
    { destruct rest as [|r rest0]; [reflexivity|]. exfalso.
      inversion Hrest as [|r0 k' sub' rest' Hp' _ _ _ [Hr0 Hrest0]]. subst r0.
      assert (0%nat = S (length sub + 0)) as Habs; [|discriminate].
      apply (Hu 0%nat (S (length sub + 0)) e0 r); [reflexivity| |].
      - simpl. rewrite lookup_app_r by lia.
        now replace (length sub + 0 - length sub)%nat with 0%nat by lia.
      - now rewrite Hp, Hp', !removelast_last. }
    subst rest. rewrite app_nil_r in *.
    assert (Hu' : unbranched sub).
    { intros i1 i2 e1 e2 H1 H2 Heq.
      assert (S i1 = S i2) by (apply (Hu (S i1) (S i2) e1 e2); auto). lia. }
    destruct i as [|i]; simpl in Hi.
    + injection Hi as <-. split; [exact Hr|]. now rewrite Hp, removelast_last.
    + destruct (IHsub Hu' i e Hi) as [Hrep Hpath].
      destruct i as [|i]; simpl; [now rewrite Hp|].
      destruct (sub !! i) as [e'|] eqn:He'; [auto|].
      apply lookup_lt_Some in Hi. apply lookup_ge_None in He'. lia.
Qed.

(** On a thread without branching the linearity of the specification holds,
    with [==] for the comparison. *)
Lemma unbranched_linear (thread authorDid : value) (out : list NormalizedPost)
    (tr : list visit) :
  traced thread authorDid out tr -> unbranched tr -> linear_loosely thread tr.
Proof.
  intros (Htr & _ & Hnodes) Hu i n m Hn Hm.
  destruct (traceThread_Chain _ _ _ Htr) as [Hc _].
  rewrite Forall_lookup in Hnodes.
  simpl in Hn. apply lookup_map in Hn as (e & He & ->).
  destruct (Chain_unbranched _ _ _ Hc Hu i e He) as [Hrep Hpath].
  destruct (Hnodes _ _ He) as [Hnode _].
  destruct (Chain_paths _ _ _ Hc e) as (k & q & Hq).
  { eapply list_elem_of_In, list_elem_of_lookup_2; eauto. }
  assert (Hsplit : v_path e = removelast (v_path e) ++ [List.last (v_path e) 0%nat]).
  { apply app_removelast_last. rewrite Hq. discriminate. }
  destruct i as [|i]; simpl in Hm.
  - injection Hm as <-. split; [|exact Hrep].
    exists (List.last (v_path e) 0%nat). rewrite Hsplit, Hpath in Hnode. exact Hnode.
  - apply lookup_map in Hm as (e' & He' & ->). rewrite He' in Hrep, Hpath.
    split; [|exact Hrep].
    exists (List.last (v_path e) 0%nat). destruct (Hnodes _ _ He') as [Hnode' _].
    rewrite Hsplit, Hpath in Hnode. now rewrite (node_at_app _ _ _ _ Hnode') in Hnode.
Qed.

(** ** The content normaliser *)

Lemma prop_path_undefined (ks : list string) : prop_path VUndefined ks = VUndefined.
Proof. induction ks; simpl; auto. Qed.

Lemma prop_nullish (o : value) (k : string) : nullish o = true -> prop o k = VUndefined.
Proof. destruct o; simpl; auto; discriminate. Qed.

(** A chain of properties that ends in something is read without a throw. *)
Lemma get_path_prop_path (ks : list string) :
  forall o, prop_path o ks <> VUndefined -> get_path o ks = Ret (prop_path o ks).
Proof.
  induction ks as [|k ks IH]; simpl; intros o Hv; [reflexivity|].
  unfold get. destruct (nullish o) eqn:Hn.
  - exfalso. apply Hv. unfold prop_path. simpl fold_left.
    rewrite (prop_nullish _ _ Hn). apply prop_path_undefined.
  - simpl. now apply IH.
Qed.

Lemma for_of_inv {S : Type} (I : S -> Prop) (l : list value)
    (body : value -> S -> outcome S) :
  (forall x s s', In x l -> I s -> body x s = Ret s' -> I s') ->
  forall s out, I s -> for_of l body s = Ret out -> I out.
Proof.
  induction l as [|x l IH]; simpl; intros Hb s out Hs E.
  - now injection E as <-.
  - apply bind_Ret in E as (s' & E1 & E2).
    eapply IH; [intros; eapply Hb; eauto| |exact E2]. eapply Hb; eauto.
Qed.

Lemma for_of_pushes {A : Type} (g : value -> list A) (l : list value)
    (body : value -> list A -> outcome (list A)) :
  (forall x acc, In x l -> body x acc = Ret (acc ++ g x)) ->
  forall acc, for_of l body acc = Ret (acc ++ flat_map g l).
Proof.
  induction l as [|x l IH]; simpl; intros Hb acc.
  - now rewrite app_nil_r.
  - rewrite Hb by auto. simpl. rewrite IH by auto. now rewrite <- app_assoc.
Qed.

Lemma pop_snoc (init : list string) (s : string) : pop (init ++ [s]) = VStr s.
Proof.
  induction init as [|a init IH]; simpl; auto.
  rewrite IH. destruct (init ++ [s]) eqn:E; auto.
  now destruct init.
Qed.

Lemma split_slash_spec (s : string) :
  exists init sub, split_slash s = init ++ [sub] /\ no_slash sub /\
    ((init = [] /\ s = sub) \/ (init <> [] /\ exists pre, s = pre +:+ "/" +:+ sub)).
Proof.
  induction s as [|c s (init & sub & Hs & Hno & Hcase)]; simpl.
  - exists [], EmptyString. simpl. auto.
  - destruct (Ascii.eqb c "/") eqn:Hc.
    + apply Ascii.eqb_eq in Hc as ->.
      exists (EmptyString :: init), sub. rewrite Hs. repeat split; auto.
      right. split; [discriminate|].
      destruct Hcase as [[_ ->]|[_ [pre ->]]].
      * now exists EmptyString.
      * now exists (String "/" pre).
    + apply Ascii.eqb_neq in Hc. rewrite Hs.
      destruct Hcase as [[-> ->]|[Hne [pre ->]]]; simpl.
      * exists [], (String c sub). simpl. repeat split; auto.
      * destruct init as [|seg init]; [congruence|]. simpl.
        exists (String c seg :: init), sub. repeat split; auto.
        right. split; [discriminate|]. now exists (String c pre).
Qed.

Lemma pop_split_slash (s : string) :
  exists sub, pop (split_slash s) = VStr sub /\ last_segment s sub.
Proof.
  destruct (split_slash_spec s) as (init & sub & -> & Hno & Hcase).
  exists sub. rewrite pop_snoc. split; [reflexivity|]. split; [exact Hno|].
  destruct Hcase as [[_ ?]|[_ ?]]; auto.
Qed.

Lemma append_nil_l (s : string) : "" +:+ s = s.
Proof. reflexivity. Qed.

Lemma append_cons (c : ascii) (s t : string) : String c s +:+ t = String c (s +:+ t).
Proof. reflexivity. Qed.

Lemma slash_in_segment (pre sub : string) : no_slash (pre +:+ "/" +:+ sub) -> False.
Proof. induction pre as [|c pre IH]; simpl; intros [Hc Hr]; auto. Qed.

(** The last segment is determined by the string. *)
Lemma last_segment_unique (s sub sub' : string) :
  last_segment s sub -> last_segment s sub' -> sub = sub'.
Proof.
  intros [Hno [->|[pre ->]]] [Hno' [E|[pre' E]]]; auto.
  - subst sub. now apply slash_in_segment in Hno.
  - subst sub'. now apply slash_in_segment in Hno'.
  - revert pre' E. induction pre as [|c pre IH]; intros [|c' pre'] E;
      rewrite ?append_nil_l, ?append_cons, ?append_nil_l in E.
    + now injection E.
    + injection E as <- ->. now apply slash_in_segment in Hno.
    + injection E as -> <-. now apply slash_in_segment in Hno'.
    + injection E as _ E. eauto.
Qed.

Lemma own_includes (fields : list (string * value)) (k : string) (v : value) :
  own fields k = Some v -> includes (map fst fields) k = true.
Proof.
  induction fields as [|[k' v'] fields IH]; simpl; [discriminate|].
  destruct (String.eqb k' k); simpl; auto.
Qed.

(** The guard of line 79 passes on a value that has a string under [k]. *)
Lemma string_property_guard (o : value) (k s : string) :
  prop o k = VStr s -> truthy o && includes (keys o) k = true.
Proof.
  destruct o; simpl; try discriminate.
  - destruct (String.eqb k "length"); discriminate.
  - destruct (String.eqb k "length"); discriminate.
  - destruct (own fields k) eqn:E; [|discriminate].
    intros _. eapply own_includes; eauto.
Qed.

(** C4. On an embed tagged [app.bsky.embed.images], [extractEmbeds] returns
    one URL per image, in the order of the images, each of them the CDN
    prefix, the author, ["/"], the link of the blob, ["@"] and the last
    segment of the MIME type; on an absent embed and on any other tag it
    returns the empty list. *)
Theorem C4_extractEmbeds_urls (embeds didPlc : value) :
  (forall images,
      prop embeds "$type" = VStr "app.bsky.embed.images" ->
      prop embeds "images" = VArr images ->
      Forall (fun image =>
                exists link mimeType,
                  prop_path image ["image"; "ref"; "$link"] = VStr link /\
                  prop_path image ["image"; "mimeType"] = VStr mimeType) images ->
      exists specs,
        extractEmbeds embeds didPlc = Ret (map (thumbnail_url (to_string didPlc)) specs) /\
        Forall2 image_spec images specs) /\
  (prop embeds "$type" <> VStr "app.bsky.embed.images" ->
   extractEmbeds embeds didPlc = Ret []).
Proof.
  split.
  - intros images Htype Himages Hwf. unfold extractEmbeds.
    rewrite (string_property_guard _ _ _ Htype), Htype, Himages. simpl.
    clear Himages Htype.
    enough (Hloop : forall acc, exists specs,
               for_of images
                 (fun image imgs =>
                    let* mimeType := get_path image ["image"; "mimeType"] in
                    let* parts := split mimeType in
                    let mime := pop parts in
                    let* link := get_path image ["image"; "ref"; "$link"] in
                    Ret (imgs ++ [ "https://cdn.bsky.app/img/feed_thumbnail/plain/"
                                   +:+ to_string didPlc +:+ "/" +:+ to_string link
                                   +:+ "@" +:+ to_string mime ])) acc
               = Ret (acc ++ map (thumbnail_url (to_string didPlc)) specs)
               /\ Forall2 image_spec images specs) by apply (Hloop []).
    induction Hwf as [|image images (link & mimeType & Hlink & Hmime) _ IH]; intros acc.
    + exists []. simpl. rewrite app_nil_r. auto.
    + cbn [for_of].
      rewrite (get_path_prop_path ["image"; "mimeType"]) by (rewrite Hmime; discriminate).
      rewrite (get_path_prop_path ["image"; "ref"; "$link"]) by (rewrite Hlink; discriminate).
      rewrite Hmime, Hlink. cbn [bind split].
      destruct (pop_split_slash mimeType) as (sub & -> & Hsub). cbn [to_string].
      destruct (IH (acc ++ [thumbnail_url (to_string didPlc) (link, sub)]))
        as (specs & E & Hspecs).
      exists ((link, sub) :: specs). split.
      * rewrite <- app_assoc in E. exact E.
      * constructor; auto. split; simpl; eauto.
  - intros Htype. unfold extractEmbeds.
    destruct (truthy embeds && includes (keys embeds) "$type"); [|reflexivity].
    destruct (strict_eq (prop embeds "$type") (VStr "app.bsky.embed.images")) eqn:E;
      [|reflexivity].
    now apply strict_eq_true in E.
Qed.

Lemma filter_js_links (features : list value) :
  Forall (fun d => nullish d = false) features ->
  filter_js (fun d => let* t := get d "$type" in
                      Ret (strict_eq t (VStr "app.bsky.richtext.facet#link"))) features
  = Ret (List.filter is_link features).
Proof.
  induction 1 as [|d features Hd _ IH]; simpl; [reflexivity|].
  unfold get at 1. rewrite Hd. simpl. rewrite IH. simpl.
  unfold is_link. now destruct (strict_eq _ _).
Qed.

Lemma filter_js_inv (pred : value -> outcome bool) (l out : list value) :
  filter_js pred l = Ret out -> forall x, In x out -> In x l.
Proof.
  revert out. induction l as [|a l IH]; simpl; intros out E x Hin.
  - injection E as <-. destruct Hin.
  - apply bind_Ret in E as (keep & _ & E). apply bind_Ret in E as (rest & Hrest & E).
    injection E as <-. destruct keep; [destruct Hin as [->|Hin]|]; eauto.
Qed.

Lemma flat_map_singleton {A B : Type} (f : A -> B) (l : list A) :
  flat_map (fun x => [f x]) l = map f l.
Proof. induction l; simpl; congruence. Qed.

(** C5. [extractFacets] returns, facet after facet and feature after
    feature, one link for every feature tagged as a link, with the byte
    range of the facet that holds it; features with another tag give
    nothing; an absent list gives the empty list. *)
Theorem C5_extractFacets_links :
  (forall facets,
      Forall facet_wf facets ->
      extractFacets (VArr facets) = Ret (flat_map links_of facets)) /\
  (forall facets, truthy facets = false -> extractFacets facets = Ret []).
Proof.
  split.
  - intros facets Hwf. unfold extractFacets. cbn [truthy iterate bind].
    apply (for_of_pushes links_of). intros facet acc Hin.
    rewrite List.Forall_forall in Hwf.
    destruct (Hwf _ Hin) as (Hfacet & (features & Hfeatures) & Hnn & Hindex).
    unfold links_of, features_of in *. rewrite Hfeatures in *.
    unfold get at 1. rewrite Hfacet, Hfeatures. cbn [bind filter_method].
    rewrite (filter_js_links _ Hnn). cbn [bind].
    assert (Hsub : forall x, In x (List.filter is_link features) -> nullish x = false).
    { intros x Hx. apply filter_In in Hx as [Hx _].
      rewrite List.Forall_forall in Hnn. auto. }
    destruct (List.filter is_link features) as [|feature links] eqn:Hlinks.
    + simpl. now rewrite app_nil_r.
    + destruct Hindex as [Hindex|Hindex]; [discriminate|].
      replace (0 <? Z.of_nat (length (feature :: links))) with true
        by (symmetry; apply Z.ltb_lt; simpl length; lia).
      rewrite <- flat_map_singleton. apply for_of_pushes.
      intros x acc' Hx. simpl get_path. unfold get.
      rewrite (Hsub _ Hx), Hfacet. cbn [bind]. rewrite Hindex. reflexivity.
  - intros facets Hfalse. unfold extractFacets. now rewrite Hfalse.
Qed.

(** C9, amended. The start and the end of every link are the [byteStart]
    and the [byteEnd] of the index of a facet of the input, unchanged; so
    every link satisfies [0 <= start <= end] when every facet of the input
    does. *)
Theorem C9_span_copied_from_facet (facets : value) (out : list FacetLink) :
  extractFacets facets = Ret out ->
  (forall fl, In fl out ->
     exists items facet, iterate facets = Ret items /\ In facet items /\
       fl_start fl = prop_path facet ["index"; "byteStart"] /\
       fl_end fl = prop_path facet ["index"; "byteEnd"]) /\
  ((forall items facet, iterate facets = Ret items -> In facet items ->
      span_ok (prop_path facet ["index"; "byteStart"])
              (prop_path facet ["index"; "byteEnd"])) ->
   forall fl, In fl out -> span_ok (fl_start fl) (fl_end fl)).
Proof.
  intros E.
  assert (Hprov : forall fl, In fl out ->
     exists items facet, iterate facets = Ret items /\ In facet items /\
       fl_start fl = prop_path facet ["index"; "byteStart"] /\
       fl_end fl = prop_path facet ["index"; "byteEnd"]).
  { unfold extractFacets in E.
    destruct (truthy facets); [|injection E as <-; intros fl []].
    apply bind_Ret in E as (items & Hitems & E).
    pose (I := fun acc : list FacetLink =>
                 forall fl, In fl acc ->
                   exists facet, In facet items /\
                     fl_start fl = prop_path facet ["index"; "byteStart"] /\
                     fl_end fl = prop_path facet ["index"; "byteEnd"]).
    enough (HI : I out).
    { intros fl Hfl. destruct (HI fl Hfl) as (facet & ?). exists items, facet. auto. }
    refine (for_of_inv I _ _ _ _ _ _ E); [|unfold I; simpl; tauto].
    intros facet acc acc' Hin Hacc Ebody.
    apply bind_Ret in Ebody as (fs & _ & Ebody).
    apply bind_Ret in Ebody as (features & _ & Ebody).
    destruct (0 <? Z.of_nat (length features)); [|now injection Ebody as <-].
    refine (for_of_inv I _ _ _ _ _ Hacc Ebody).
    intros feature a a' _ Ha Ef.
    apply bind_Ret in Ef as (uri & _ & Ef).
    apply bind_Ret in Ef as (byteStart & Hs & Ef). apply get_path_Ret in Hs.
    apply bind_Ret in Ef as (byteEnd & He & Ef). apply get_path_Ret in He.
    injection Ef as <-. intros fl Hfl.
    apply in_app_or in Hfl as [Hfl|[<-|[]]]; [now apply Ha|].
    exists facet. subst. auto. }
  split; [exact Hprov|].
  intros Hin fl Hfl.
  destruct (Hprov fl Hfl) as (items & facet & Hitems & Hfacet & -> & ->). eauto.
Qed.

(** ** The fuel of the traversal is enough *)

Lemma bind_finishes {A B : Type} (m : outcome A) (k : A -> outcome B) :
  finishes m -> (forall a, m = Ret a -> finishes (k a)) -> finishes (bind m k).
Proof.
  unfold finishes. destruct m; simpl; intros Hm Hk; [auto|discriminate|congruence].
Qed.

Lemma get_finishes (o : value) (k : string) : finishes (get o k).
Proof. unfold finishes, get. destruct (nullish o); discriminate. Qed.

Lemma get_path_finishes (ks : list string) : forall o, finishes (get_path o ks).
Proof.
  induction ks as [|k ks IH]; intros o; simpl; [discriminate|].
  apply bind_finishes; auto using get_finishes.
Qed.

Lemma for_of_finishes {S : Type} (l : list value) (body : value -> S -> outcome S) :
  (forall x s, In x l -> finishes (body x s)) -> forall s, finishes (for_of l body s).
Proof.
  induction l as [|x l IH]; simpl; intros Hb s; [discriminate|].
  apply bind_finishes; auto.
Qed.

Lemma iterate_finishes (v : value) : finishes (iterate v).
Proof. destruct v; discriminate. Qed.

Lemma split_finishes (v : value) : finishes (split v).
Proof. destruct v; discriminate. Qed.

Lemma filter_js_finishes (pred : value -> outcome bool) (l : list value) :
  (forall x, finishes (pred x)) -> finishes (filter_js pred l).
Proof.
  intros Hp. induction l as [|x l IH]; simpl; [discriminate|].
  apply bind_finishes; auto. intros keep _.
  apply bind_finishes; auto. discriminate.
Qed.

Lemma extractEmbeds_finishes (embeds didPlc : value) : finishes (extractEmbeds embeds didPlc).
Proof.
  unfold extractEmbeds.
  destruct (truthy embeds && includes (keys embeds) "$type"); [|discriminate].
  destruct (strict_eq _ _); [|discriminate].
  apply bind_finishes; [apply iterate_finishes|]. intros images _.
  apply for_of_finishes. intros image imgs _.
  apply bind_finishes; [apply get_path_finishes|]. intros mimeType _.
  apply bind_finishes; [apply split_finishes|]. intros parts _.
  apply bind_finishes; [apply get_path_finishes|]. discriminate.
Qed.

Lemma extractFacets_finishes (facets : value) : finishes (extractFacets facets).
Proof.
  unfold extractFacets. destruct (truthy facets); [|discriminate].
  apply bind_finishes; [apply iterate_finishes|]. intros items _.
  apply for_of_finishes. intros facet fcts _.
  apply bind_finishes; [apply get_finishes|]. intros fs _.
  apply bind_finishes.
  { destruct fs; try discriminate. apply filter_js_finishes. intros d.
    apply bind_finishes; [apply get_finishes|]. discriminate. }
  intros features _. destruct (0 <? _); [|discriminate].
  apply for_of_finishes. intros feature a _.
  apply bind_finishes; [apply get_finishes|]. intros uri _.
  apply bind_finishes; [apply get_path_finishes|]. intros byteStart _.
  apply bind_finishes; [apply get_path_finishes|]. discriminate.
Qed.

Lemma height_item (items : list value) (x : value) :
  In x items -> (height x < height (VArr items))%nat.
Proof.
  simpl. induction items as [|a items IH]; simpl; intros Hin; [destruct Hin|].
  destruct Hin as [->|Hin]; [lia|]. specialize (IH Hin). lia.
Qed.

Lemma height_own (fields : list (string * value)) (k : string) (v : value) :
  own fields k = Some v -> (height v < height (VObj fields))%nat.
Proof.
  simpl. induction fields as [|[k' v'] fields IH]; simpl; intros E; [discriminate|].
  destruct (String.eqb k' k).
  - injection E as ->. lia.
  - specialize (IH E). lia.
Qed.

Lemma height_prop (o : value) (k : string) : (height (prop o k) <= height o)%nat.
Proof.
  destruct o; simpl prop; try (simpl; lia).
  - destruct (String.eqb k "length"); simpl; lia.
  - destruct (String.eqb k "length"); simpl; lia.
  - destruct (own fields k) eqn:E; [|simpl; lia].
    apply height_own in E. lia.
Qed.

#[local] Arguments get_path : simpl never.

Lemma traverseReplies_finishes (fuel : nat) (cid authorDid : value) :
  forall replyArray pcid replies,
    (height replyArray < fuel)%nat ->
    finishes (traverseReplies fuel cid authorDid replyArray pcid replies).
Proof.
  induction fuel as [|fuel IH]; intros arr pcid replies Hh; [lia|].
  simpl. destruct arr; try discriminate.
  apply for_of_finishes. intros reply acc Hin. apply height_item in Hin.
  apply bind_finishes; [apply get_path_finishes|]. intros did _.
  destruct (strict_eq did authorDid); [|discriminate].
  apply bind_finishes; [apply get_path_finishes|]. intros rootCid _.
  destruct (loose_eq rootCid cid); [|discriminate].
  apply bind_finishes; [apply get_path_finishes|]. intros parentCid _.
  destruct (loose_eq parentCid pcid); [|discriminate].
  apply bind_finishes; [apply get_path_finishes|]. intros uri _.
  apply bind_finishes; [apply get_path_finishes|]. intros text _.
  apply bind_finishes; [apply get_path_finishes|]. intros e _.
  apply bind_finishes; [apply extractEmbeds_finishes|]. intros embed _.
  apply bind_finishes; [apply get_path_finishes|]. intros f _.
  apply bind_finishes; [apply extractFacets_finishes|]. intros facets _.
  apply bind_finishes; [apply get_finishes|]. intros rs _.
  apply bind_finishes.
  { destruct (truthy rs); [|discriminate].
    apply bind_finishes; [apply get_path_finishes|]. discriminate. }
  intros more _. destruct more; [|discriminate].
  apply bind_finishes; [apply get_finishes|]. intros rs' Hrs'.
  apply get_Ret in Hrs' as [_ ->].
  apply bind_finishes; [apply get_path_finishes|]. intros c _.
  apply IH. pose proof (height_prop reply "replies"). lia.
Qed.

(** The traversal never stops for lack of fuel: [extractReplies] returns or
    throws, as the source does. *)
Lemma extractReplies_finishes (thread authorDid : value) :
  finishes (extractReplies thread authorDid).
Proof.
  unfold extractReplies.
  apply bind_finishes; [apply get_path_finishes|]. intros cid _.
  apply bind_finishes; [apply get_finishes|]. intros rs Hrs.
  apply get_Ret in Hrs as [_ ->].
  apply bind_finishes; [apply get_path_finishes|]. intros pcid _.
  apply traverseReplies_finishes. pose proof (height_prop thread "replies"). lia.
Qed.

Lemma reconstruct_finishes (thread : value) : finishes (reconstruct thread).
Proof.
  unfold reconstruct.
  apply bind_finishes; [apply get_path_finishes|]. intros uri _.
  apply bind_finishes; [apply get_path_finishes|]. intros text _.
  apply bind_finishes; [apply get_path_finishes|]. intros e _.
  apply bind_finishes; [apply get_path_finishes|]. intros did _.
  apply bind_finishes; [apply extractEmbeds_finishes|]. intros embed _.
  apply bind_finishes; [apply get_path_finishes|]. intros f _.
  apply bind_finishes; [apply extractFacets_finishes|]. intros facets _.
  apply bind_finishes; [apply get_finishes|]. intros t _.
  apply bind_finishes; [apply get_path_finishes|]. intros did' _.
  apply bind_finishes; [apply extractReplies_finishes|]. intros rest _.
  apply bind_finishes; [apply get_path_finishes|]. discriminate.
Qed.

(** ** The pipeline *)

Lemma fetchHTML_state (w : World) (url : string) (st : State) :
  snd (fetchHTML w url st) = logged url st.
Proof. unfold fetchHTML, fetch. now destruct (fetch_text w url). Qed.

(** The three ways in which [fetchThread] returns. *)
Lemma fetchThread_inv (w : World) (url : string) (st st' : State) (r : Result) :
  fetchThread w url st = (Ret r, st') ->
  (kv st !! url = Some r /\ st' = st) \/
  (kv st !! url = None /\ fst (fetchHTML w url st) = None /\
   r = ErrorResult "Error: Invalid URL" /\ st' = logged url st) \/
  (kv st !! url = None /\
   exists doc txt,
     let feed := threadURL (didFromPost (Some doc)) (pop (split_slash url)) in
     fst (fetchHTML w url st) = Some doc /\
     fetch_text w feed = Some txt /\
     reconstruct (safeJSONParse w txt) = Ret r /\
     st' = kv_set url r (logged feed (logged url st))).
Proof.
  unfold fetchThread. destruct (kv st !! url) as [entry|] eqn:Hkv.
  - intros E. injection E as -> ->. auto.
  - pose proof (fetchHTML_state w url st) as Hst.
    destruct (fetchHTML w url st) as [[doc|] st1]; simpl in Hst; subst st1.
    + unfold fetchJSON, fetch.
      destruct (fetch_text w _) as [txt|] eqn:Htxt; simpl; [|discriminate].
      destruct (reconstruct (safeJSONParse w txt)) as [out| |] eqn:Hrec; try discriminate.
      intros E. injection E as -> <-. right. right. split; [reflexivity|].
      exists doc, txt. auto.
    + intros E. injection E as <- <-. right. left. auto.
Qed.

Lemma reconstruct_Ret (thread : value) (r : Result) :
  reconstruct thread = Ret r ->
  let root := prop thread "thread" in
  let did := prop_path root ["post"; "author"; "did"] in
  exists e0 rest,
    r = ThreadResult (prop_path root ["post"; "author"]) (e0 :: rest) /\
    normalizes root did e0 /\
    extractReplies root did = Ret rest.
Proof.
  unfold reconstruct. intros E.
  apply bind_Ret in E as (uri & Huri & E). apply get_path_Ret in Huri.
  apply bind_Ret in E as (text & Htext & E). apply get_path_Ret in Htext.
  apply bind_Ret in E as (e & He & E). apply get_path_Ret in He.
  apply bind_Ret in E as (did & Hdid & E). apply get_path_Ret in Hdid.
  apply bind_Ret in E as (embed & Hembed & E).
  apply bind_Ret in E as (f & Hf & E). apply get_path_Ret in Hf.
  apply bind_Ret in E as (facets & Hfacets & E).
  apply bind_Ret in E as (t & Ht & E). apply get_Ret in Ht as [_ ->].
  apply bind_Ret in E as (did' & Hdid' & E). apply get_path_Ret in Hdid'.
  apply bind_Ret in E as (rest & Hrest & E).
  apply bind_Ret in E as (author & Hauthor & E). apply get_path_Ret in Hauthor.
  injection E as <-. subst.
  exists {| np_uri := prop_path thread ["thread"; "post"; "uri"];
            np_text := prop_path thread ["thread"; "post"; "record"; "text"];
            np_embed := embed; np_facets := facets |}, rest.
  repeat split; auto.
Qed.

(** The pipeline as a whole returns or throws. *)
Lemma fetchThread_finishes (w : World) (url : string) (st : State) :
  finishes (fst (fetchThread w url st)).
Proof.
  unfold fetchThread. destruct (kv st !! url); [discriminate|].
  destruct (fetchHTML w url st) as [[doc|] st1]; [|discriminate].
  destruct (fetchJSON w _ st1) as [[thread| |] st2] eqn:Hjson; simpl.
  - pose proof (reconstruct_finishes thread) as Hf.
    destruct (reconstruct thread); simpl; [discriminate|discriminate|now destruct Hf].
  - discriminate.
  - unfold fetchJSON, fetch in Hjson. destruct (fetch_text w _); discriminate.
Qed.

(** C3. The thread built from a fetched tree starts with the normalised
    root post, and every element after it is the normalised post of a node
    of the tree below the root whose author is the root's author. *)
Theorem C3_root_first_then_same_author
    (w : World) (url : string) (st st' : State) (r : Result) :
  kv st !! url = None ->
  fetchThread w url st = (Ret r, st') ->
  message r = "success"%string ->
  exists doc txt e0 rest,
    fst (fetchHTML w url st) = Some doc /\
    fetch_text w (threadURL (didFromPost (Some doc)) (pop (split_slash url))) = Some txt /\
    let root := prop (safeJSONParse w txt) "thread" in
    let did := prop_path root ["post"; "author"; "did"] in
    r = ThreadResult (prop_path root ["post"; "author"]) (e0 :: rest) /\
    normalizes root did e0 /\
    forall e, In e rest ->
      exists p n, p <> [] /\ node_at root p = Some n /\ normalizes n did e /\
                  prop_path n ["post"; "author"; "did"] = did.
Proof.
  intros Hmiss E Hmsg.
  apply fetchThread_inv in E
    as [[Hhit _]|[(_ & _ & -> & _)|(_ & doc & txt & Hdoc & Htxt & Hrec & _)]].
  - congruence.
  - discriminate.
  - apply reconstruct_Ret in Hrec as (e0 & rest & -> & Hroot & Hrest).
    exists doc, txt, e0, rest. repeat split; auto; try apply Hroot.
    intros e Hin.
    destruct (extractReplies_trace _ _ _ Hrest) as (tr & Htr & ->).
    apply in_map_iff in Hin as (v & <- & Hv).
    destruct (traceThread_Chain _ _ _ Htr) as [Hc Hok].
    rewrite List.Forall_forall in Hok.
    destruct (Hok _ Hv) as (Hnode & Hauthor & _ & Hnorm).
    exists (v_path v), (v_node v). repeat split; auto; try apply Hnorm.
    + destruct (Chain_paths _ _ _ Hc _ Hv) as (k & q & ->). discriminate.
    + now apply strict_eq_true.
Qed.

(** C6. When the URL is not cached and the page cannot be fetched and
    parsed, [fetchThread] returns [{message: "Error: Invalid URL"}] and
    leaves the store as it was; a later request for the URL, whatever the
    world then is, fetches the page again. *)
Theorem C6_failed_page_fetch_is_not_cached
    (w : World) (url : string) (st : State) :
  kv st !! url = None ->
  fst (fetchHTML w url st) = None ->
  exists st',
    fetchThread w url st = (Ret (ErrorResult "Error: Invalid URL"), st') /\
    kv st' = kv st /\
    requests st' = requests st ++ [url] /\
    forall w', exists more,
      requests (snd (fetchThread w' url st')) = requests st' ++ url :: more.
Proof.
  intros Hmiss Hpage. exists (logged url st).
  split; [|split; [reflexivity|split; [reflexivity|]]].
  - unfold fetchThread. rewrite Hmiss.
    pose proof (fetchHTML_state w url st) as Hst.
    destruct (fetchHTML w url st) as [postDoc st1]. simpl in *. now subst.
  - intros w'. unfold fetchThread. change (kv (logged url st)) with (kv st).
    rewrite Hmiss.
    pose proof (fetchHTML_state w' url (logged url st)) as Hst.
    destruct (fetchHTML w' url (logged url st)) as [[doc|] st1]; simpl in Hst; subst st1.
    + unfold fetchJSON, fetch.
      destruct (fetch_text w' _) as [txt|]; simpl.
      * destruct (reconstruct (safeJSONParse w' txt)); simpl;
          eexists; rewrite <- app_assoc; reflexivity.
      * eexists. rewrite <- app_assoc. reflexivity.
    + exists []. reflexivity.
Qed.

Lemma fetchThread_keeps (w : World) (u url : string) (st : State) (r : Result) :
  kv st !! url = Some r -> kv (snd (fetchThread w u st)) !! url = Some r.
Proof.
  intros Hr. unfold fetchThread. destruct (kv st !! u) as [entry|] eqn:Hu; [exact Hr|].
  assert (Hne : u <> url) by congruence.
  pose proof (fetchHTML_state w u st) as Hst.
  destruct (fetchHTML w u st) as [[doc|] st1]; simpl in Hst; subst st1; [|exact Hr].
  unfold fetchJSON, fetch.
  destruct (fetch_text w _) as [txt|]; simpl; [|exact Hr].
  destruct (reconstruct (safeJSONParse w txt)); simpl; try exact Hr.
  now rewrite lookup_insert_ne.
Qed.

(** Only a success is ever stored, and only under the URL of the request. *)
Lemma fetchThread_stores_success (w : World) (url k : string) (st : State) (r : Result) :
  kv (snd (fetchThread w url st)) !! k = Some r ->
  kv st !! k = Some r \/ (k = url /\ exists author thread, r = ThreadResult author thread).
Proof.
  unfold fetchThread. destruct (kv st !! url) as [entry|] eqn:Hu; [auto|].
  pose proof (fetchHTML_state w url st) as Hst.
  destruct (fetchHTML w url st) as [[doc|] st1]; simpl in Hst; subst st1; [|auto].
  unfold fetchJSON, fetch.
  destruct (fetch_text w _) as [txt|]; simpl; [|auto].
  destruct (reconstruct (safeJSONParse w txt)) as [out| |] eqn:Hrec; simpl; auto.
  destruct (decide (url = k)) as [->|Hne].
  - rewrite lookup_insert_eq. intros E. injection E as <-. right. split; [reflexivity|].
    apply reconstruct_Ret in Hrec as (e0 & rest & -> & _). eauto.
  - rewrite lookup_insert_ne by exact Hne. auto.
Qed.

Lemma serve_keeps (calls : list (World * string)) :
  forall (st : State) (url : string) (r : Result),
    kv st !! url = Some r -> kv (serve calls st) !! url = Some r.
Proof.
  induction calls as [|[w u] calls IH]; simpl; intros st url r Hr; auto.
  apply IH. now apply fetchThread_keeps.
Qed.

(** C7. After a call that returned a success, a second call for the same
    URL returns the same result and leaves the state, the log of outbound
    requests included, as it was, in any world; and the entry stays what it
    is through any later sequence of requests. *)
Theorem C7_second_call_is_a_cache_hit
    (w : World) (url : string) (st st' : State) (r : Result) :
  fetchThread w url st = (Ret r, st') ->
  message r = "success"%string ->
  (forall w2, fetchThread w2 url st' = (Ret r, st')) /\
  (forall calls, kv (serve calls st') !! url = Some r).
Proof.
  intros E Hmsg.
  assert (Hhit : kv st' !! url = Some r).
  { apply fetchThread_inv in E
      as [[Hhit ->]|[(_ & _ & -> & _)|(_ & doc & txt & _ & _ & _ & ->)]].
    - exact Hhit.
    - discriminate.
    - apply lookup_insert_eq. }
  split.
  - intros w2. unfold fetchThread. now rewrite Hhit.
  - intros calls. now apply serve_keeps.
Qed.

(** C8. What the code does when the page has no marker element: it asks
    the feed for the thread of the account ["null"]; when the feed answers
    with an error object the request ends in a [TypeError], not in an
    [ErrorResult] with status 400, and two requests have gone out. *)
Theorem C8_missing_did_is_not_reported :
  didFromPost (Some page_without_did) = VNull /\
  handler world_without_did sample_url empty_state
  = (Throw,
     {| kv := ∅;
        requests :=
          [sample_url;
           "https://public.api.bsky.app/xrpc/app.bsky.feed.getPostThread?uri=at://null/app.bsky.feed.post/3kabc"%string] |}).
Proof. split; reflexivity. Qed.

(** Whatever the feed answers, a page without the marker never leads to an
    [ErrorResult]: a returned result is a success, stored under the URL. *)
Lemma missing_did_never_an_error
    (w : World) (url : string) (st st' : State) (doc : HTMLDocument) (r : Result) :
  kv st !! url = None ->
  fst (fetchHTML w url st) = Some doc ->
  didFromPost (Some doc) = VNull ->
  fetchThread w url st = (Ret r, st') ->
  (exists author thread, r = ThreadResult author thread) /\
  kv st' !! url = Some r /\
  In (threadURL VNull (pop (split_slash url))) (requests st').
Proof.
  intros Hmiss Hdoc Hdid E.
  apply fetchThread_inv in E
    as [[Hhit _]|[(_ & Hnone & _)|(_ & doc' & txt & Hdoc' & _ & Hrec & ->)]];
    try congruence.
  rewrite Hdoc in Hdoc'. injection Hdoc' as <-. rewrite Hdid.
  apply reconstruct_Ret in Hrec as (e0 & rest & -> & _). repeat split.
  - eauto.
  - apply lookup_insert_eq.
  - simpl. apply in_or_app. right. now left.
Qed.

Lemma get_path_readable (ks : list string) :
  forall o, readable o ks -> get_path o ks = Ret (prop_path o ks).
Proof.
  induction ks as [|k ks IH]; intros o Hr; [reflexivity|].
  destruct Hr as [Ho Hr].
  change (get_path o (k :: ks)) with (let* o' := get o k in get_path o' ks).
  unfold get. rewrite Ho. cbn [bind]. now apply IH.
Qed.

(** C10. When the [replies] of the root node is not an array (absent,
    [null] or anything else), [extractReplies] returns the empty list, and
    the thread that [fetchThread] builds from the tree is the normalised
    root post alone. *)
Theorem C10_no_reply_array_gives_root_only (root : value) :
  (forall items, prop root "replies" <> VArr items) ->
  (forall authorDid,
      readable root ["post"; "cid"] ->
      extractReplies root authorDid = Ret []) /\
  (forall thread e0,
      prop thread "thread" = root ->
      readable thread ["thread"; "post"; "record"; "text"] ->
      readable thread ["thread"; "post"; "author"; "did"] ->
      normalizes root (prop_path root ["post"; "author"; "did"]) e0 ->
      reconstruct thread = Ret (ThreadResult (prop_path root ["post"; "author"]) [e0])).
Proof.
  intros Hnot.
  assert (Hnone : forall authorDid, readable root ["post"; "cid"] ->
                                    extractReplies root authorDid = Ret []).
  { intros authorDid Hr. unfold extractReplies.
    rewrite (get_path_readable _ _ Hr). cbn [bind].
    destruct Hr as [Hroot _]. unfold get. rewrite Hroot. cbn [bind].
    cbn [traverseReplies].
    destruct (prop root "replies"); try reflexivity. now destruct (Hnot items). }
  split; [exact Hnone|].
  intros thread e0 <- Hrec Hauth (Huri & Htext & Hembed & Hfacets).
  simpl in Hrec, Hauth.
  destruct Hrec as (Ht & Hroot & Hpost & Hrecord & _). destruct Hauth as (_ & _ & _ & Hauthor & _).
  unfold reconstruct.
  rewrite (get_path_readable ["thread"; "post"; "uri"]) by (simpl; auto).
  rewrite (get_path_readable ["thread"; "post"; "record"; "text"]) by (simpl; auto).
  rewrite (get_path_readable ["thread"; "post"; "record"; "embed"]) by (simpl; auto).
  rewrite (get_path_readable ["thread"; "post"; "author"; "did"]) by (simpl; auto).
  rewrite (get_path_readable ["thread"; "post"; "record"; "facets"]) by (simpl; auto).
  rewrite (get_path_readable ["thread"; "post"; "author"]) by (simpl; auto).
  cbn [bind].
  change (prop_path thread ["thread"; "post"; "record"; "embed"])
    with (prop_path (prop thread "thread") ["post"; "record"; "embed"]).
  change (prop_path thread ["thread"; "post"; "author"; "did"])
    with (prop_path (prop thread "thread") ["post"; "author"; "did"]).
  rewrite Hembed. cbn [bind].
  change (prop_path thread ["thread"; "post"; "record"; "facets"])
    with (prop_path (prop thread "thread") ["post"; "record"; "facets"]).
  rewrite Hfacets. cbn [bind].
  unfold get. rewrite Ht. cbn [bind].
  rewrite Hnone by (simpl; auto). cbn [bind].
  destruct e0 as [uri text embed facets]. simpl in *. subst. reflexivity.
Qed.

End Correctness.

(** * The theorems at sample inputs *)

Example pruned_thread_unrolls :
  @extractReplies plain_builtins pruned_thread (VStr "A") = Ret [].
Proof. reflexivity. Qed.

Example sample_embed_url :
  @extractEmbeds plain_builtins sample_embed (VStr "did:plc:xyz")
  = Ret ["https://cdn.bsky.app/img/feed_thumbnail/plain/did:plc:xyz/abc123@jpeg"%string].
Proof. reflexivity. Qed.

Example sample_facet_links :
  extractFacets (VArr [sample_facet 5 10])
  = Ret [ {| fl_uri := VStr "https://x.test"; fl_start := VNum 5; fl_end := VNum 10 |} ].
Proof. reflexivity. Qed.

Lemma C1_witness :
  @extractReplies plain_builtins pruned_thread (VStr "A") = Ret [] /\
  [0%nat] <> [] /\
  node_at pruned_thread [0%nat]
  = Some (sample_node "X" "B" "C0" "C0" [sample_node "Y" "A" "C0" "X" []]) /\
  exists tr,
    @traced plain_builtins pruned_thread (VStr "A") [] tr /\
    forall e q, In e tr -> v_path e <> [0%nat] ++ q.
Proof.
  split; [reflexivity|]. split; [discriminate|]. split; [reflexivity|].
  apply (@C1_foreign_reply_and_subtree_excluded plain_builtins pruned_thread (VStr "A") []
           [0%nat]
           (sample_node "X" "B" "C0" "C0" [sample_node "Y" "A" "C0" "X" []]));
    [reflexivity | discriminate | reflexivity | discriminate].
Defined.

(** C2 as the specification states it fails on a root with two replies of
    its author: the thread is the root, C1, C3 (the reply to C1) and C2, and
    C2 replies to the root, not to C3. *)
Lemma C2_counterexample :
  exists tr,
    @traceThread plain_builtins branching_thread (VStr "A") = Ret tr /\
    @extractReplies plain_builtins branching_thread (VStr "A") = Ret (map v_post tr) /\
    map v_post tr = map sample_normalized ["C1"; "C3"; "C2"]%string /\
    ~ linear branching_thread tr.
Proof.
  eexists. split; [reflexivity|]. split; [reflexivity|]. split; [reflexivity|].
  intros Hlinear.
  destruct (Hlinear 2%nat _ _ eq_refl eq_refl) as [Hparent _].
  discriminate Hparent.
Qed.

Lemma C2_witness :
  @extractReplies plain_builtins branching_thread (VStr "A")
  = Ret (map sample_normalized ["C1"; "C3"; "C2"]%string) /\
  exists tr,
    @traced plain_builtins branching_thread (VStr "A")
      (map sample_normalized ["C1"; "C3"; "C2"]%string) tr /\
    forall (i : nat) (n : value), raw_chain branching_thread tr !! S i = Some n ->
      @roots_at plain_builtins (prop_path branching_thread ["post"; "cid"]%string) n /\
      exists (j : nat) (m : value) (k : nat),
        (j <= i)%nat /\ raw_chain branching_thread tr !! j = Some m /\
        node_at m [k] = Some n /\
        @replies_to plain_builtins (prop_path m ["post"; "cid"]%string) n.
Proof.
  split; [reflexivity|].
  apply (@C2_replies_to_an_earlier_element plain_builtins branching_thread (VStr "A")).
  reflexivity.
Defined.

Lemma C3_witness :
  kv empty_state !! sample_url = None /\
  @fetchThread plain_builtins (world_of branching_thread) sample_url empty_state
  = (Ret branching_result, branching_state) /\
  message branching_result = "success"%string /\
  exists doc txt e0 rest,
    fst (fetchHTML (world_of branching_thread) sample_url empty_state) = Some doc /\
    fetch_text (world_of branching_thread)
      (@threadURL plain_builtins (@didFromPost plain_builtins (Some doc))
         (pop (split_slash sample_url))) = Some txt /\
    let root := prop (safeJSONParse (world_of branching_thread) txt) "thread" in
    let did := prop_path root ["post"; "author"; "did"]%string in
    branching_result = ThreadResult (prop_path root ["post"; "author"]%string) (e0 :: rest) /\
    @normalizes plain_builtins root did e0 /\
    forall e, In e rest ->
      exists p n, p <> [] /\ node_at root p = Some n /\
                  @normalizes plain_builtins n did e /\
                  prop_path n ["post"; "author"; "did"]%string = did.
Proof.
  split; [reflexivity|]. split; [reflexivity|]. split; [reflexivity|].
  apply (@C3_root_first_then_same_author plain_builtins (world_of branching_thread)
           sample_url empty_state branching_state branching_result);
    reflexivity.
Defined.

Lemma C4_witness :
  (exists specs,
     @extractEmbeds plain_builtins sample_embed (VStr "did:plc:xyz")
     = Ret (map (thumbnail_url "did:plc:xyz") specs) /\
     Forall2 image_spec
       [VObj [("image"%string,
               VObj [("mimeType"%string, VStr "image/jpeg");
                     ("ref"%string, VObj [("$link"%string, VStr "abc123")])])]] specs) /\
  @extractEmbeds plain_builtins VUndefined (VStr "did:plc:xyz") = Ret [] /\
  @extractEmbeds plain_builtins
    (VObj [("$type"%string, VStr "app.bsky.embed.external")]) (VStr "did:plc:xyz") = Ret [].
Proof.
  split; [|split].
  - apply (proj1 (@C4_extractEmbeds_urls plain_builtins sample_embed (VStr "did:plc:xyz")));
      [reflexivity | reflexivity |].
    constructor; [|constructor]. exists "abc123"%string, "image/jpeg"%string.
    split; reflexivity.
  - apply (proj2 (@C4_extractEmbeds_urls plain_builtins VUndefined (VStr "did:plc:xyz"))).
    discriminate.
  - apply (proj2 (@C4_extractEmbeds_urls plain_builtins
                    (VObj [("$type"%string, VStr "app.bsky.embed.external")])
                    (VStr "did:plc:xyz"))).
    discriminate.
Defined.

Lemma sample_facet_wf (byteStart byteEnd : Z) : facet_wf (sample_facet byteStart byteEnd).
Proof.
  split; [reflexivity|]. split; [now eexists|]. split.
  - repeat constructor.
  - right. reflexivity.
Qed.

Lemma C5_witness :
  Forall facet_wf [sample_facet 5 10; sample_facet 20 30] /\
  extractFacets (VArr [sample_facet 5 10; sample_facet 20 30])
  = Ret (flat_map links_of [sample_facet 5 10; sample_facet 20 30]) /\
  extractFacets VUndefined = Ret [].
Proof.
  assert (Hwf : Forall facet_wf [sample_facet 5 10; sample_facet 20 30]).
  { repeat (constructor; [apply sample_facet_wf|]). constructor. }
  split; [exact Hwf|]. split.
  - now apply (proj1 C5_extractFacets_links).
  - now apply (proj2 C5_extractFacets_links).
Defined.

Lemma C6_witness :
  kv empty_state !! sample_url = None /\
  fst (fetchHTML world_offline sample_url empty_state) = None /\
  exists st',
    @fetchThread plain_builtins world_offline sample_url empty_state
    = (Ret (ErrorResult "Error: Invalid URL"), st') /\
    kv st' = kv empty_state /\
    requests st' = requests empty_state ++ [sample_url] /\
    forall w', exists more,
      requests (snd (@fetchThread plain_builtins w' sample_url st'))
      = requests st' ++ sample_url :: more.
Proof.
  split; [reflexivity|]. split; [reflexivity|].
  apply (@C6_failed_page_fetch_is_not_cached plain_builtins world_offline sample_url
           empty_state); reflexivity.
Defined.

Lemma C7_witness :
  @fetchThread plain_builtins (world_of branching_thread) sample_url empty_state
  = (Ret branching_result, branching_state) /\
  message branching_result = "success"%string /\
  (forall w2, @fetchThread plain_builtins w2 sample_url branching_state
              = (Ret branching_result, branching_state)) /\
  (forall calls,
      kv (@serve plain_builtins calls branching_state) !! sample_url
      = Some branching_result).
Proof.
  split; [reflexivity|]. split; [reflexivity|].
  apply (@C7_second_call_is_a_cache_hit plain_builtins (world_of branching_thread)
           sample_url empty_state branching_state branching_result); reflexivity.
Defined.

(** C9 as the specification states it fails on a facet whose index runs
    backwards: the link carries the two offsets as they are. *)
Lemma C9_counterexample :
  extractFacets (VArr [sample_facet 10 5])
  = Ret [ {| fl_uri := VStr "https://x.test"; fl_start := VNum 10; fl_end := VNum 5 |} ] /\
  ~ span_ok (VNum 10) (VNum 5).
Proof.
  split; [reflexivity|].
  intros (s & e & Hs & He & Hle). injection Hs as <-. injection He as <-. lia.
Qed.

Lemma C9_witness :
  extractFacets (VArr [sample_facet 5 10])
  = Ret [ {| fl_uri := VStr "https://x.test"; fl_start := VNum 5; fl_end := VNum 10 |} ] /\
  forall fl,
    In fl [ {| fl_uri := VStr "https://x.test"; fl_start := VNum 5; fl_end := VNum 10 |} ] ->
    span_ok (fl_start fl) (fl_end fl).
Proof.
  split; [reflexivity|].
  apply (proj2 (C9_span_copied_from_facet (VArr [sample_facet 5 10]) _ eq_refl)).
  intros items facet Hitems Hin. injection Hitems as <-.
  destruct Hin as [<-|[]]. exists 5, 10. repeat split; lia.
Defined.

Lemma C10_witness :
  (forall items, prop lone_root "replies" <> VArr items) /\
  @extractReplies plain_builtins lone_root (VStr "A") = Ret [] /\
  @reconstruct plain_builtins lone_answer
  = Ret (ThreadResult (VObj [("did"%string, VStr "A")]) [sample_normalized "C0"]).
Proof.
  assert (Hnot : forall items, prop lone_root "replies" <> VArr items) by discriminate.
  split; [exact Hnot|].
  destruct (@C10_no_reply_array_gives_root_only plain_builtins lone_root Hnot)
    as [Hreplies Hthread].
  split.
  - apply Hreplies. simpl. auto.
  - apply (Hthread lone_answer (sample_normalized "C0")); simpl; repeat split; auto.
Defined.

(** * Further properties of the code *)

Section Further.
Context `{Builtins}.

(** ** What the traversal keeps *)

Lemma node_at_child (owner x : value) (k : nat) :
  node_at owner [k] = Some x ->
  exists items, prop owner "replies" = VArr items /\ nth_error items k = Some x.
Proof.
  simpl. destruct (prop owner "replies") as [| | | | |items|]; try discriminate.
  destruct (nth_error items k) as [c|] eqn:Hk; try discriminate.
  intros E. injection E as ->. eauto.
Qed.

(** Soundness: every visit of a chain sits at an admissible place. *)
Lemma Chain_admissible (thread cid authorDid : value) (p : list nat) (pc : value)
    (new : list visit) :
  Chain p pc new ->
  Forall (visit_ok thread cid authorDid) new ->
  forall owner, node_at thread p = Some owner ->
    forall e, In e new ->
      exists q, q <> [] /\ v_path e = p ++ q /\ admissible cid authorDid owner pc q.
Proof.
  intros Hc.
  induction Hc as [|p pc e0 k sub rest Hp Hr Hsub IHsub Hrest IHrest];
    intros Hok owner Hown e Hin.
  - destruct Hin.
  - apply Forall_cons in Hok as [Hok0 Hok]. apply Forall_app in Hok as [Hoksub Hokrest].
    destruct Hok0 as (Hnode & Ha & Hroot & _).
    rewrite Hp in Hnode.
    pose proof Hnode as Hchild. rewrite (node_at_app _ _ _ _ Hown) in Hchild.
    apply node_at_child in Hchild as (items & Hitems & Hk).
    destruct Hin as [<-|Hin]; [|apply in_app_or in Hin as [Hin|Hin]].
    + exists [k]. split; [discriminate|]. split; [exact Hp|].
      simpl. rewrite Hitems, Hk. auto.
    + destruct (IHsub Hoksub _ Hnode e Hin) as (q & Hq & Hpath & Hadm).
      exists (k :: q). split; [discriminate|]. split.
      * now rewrite Hpath, <- app_assoc.
      * simpl. rewrite Hitems, Hk. auto.
    + eauto.
Qed.

(** An item that passes the three tests is pushed, and the traversal goes
    into its [replies] when that is an array with an item. *)
Lemma trace_body_accepts self (cid authorDid pcid : value) (p : list nat)
    (i : nat) (reply : value) (visits out : list visit) :
  trace_body self cid authorDid pcid p i reply visits = Ret out ->
  same_author authorDid reply -> roots_at cid reply -> replies_to pcid reply ->
  exists np,
    let e := {| v_path := p ++ [i]; v_node := reply; v_post := np |} in
    (out = visits ++ [e] \/
     self (prop reply "replies") (prop_path reply ["post"; "cid"]) (p ++ [i])
          (visits ++ [e]) = Ret out) /\
    (forall x items, prop reply "replies" = VArr (x :: items) ->
       self (prop reply "replies") (prop_path reply ["post"; "cid"]) (p ++ [i])
            (visits ++ [e]) = Ret out).
Proof.
  unfold trace_body, same_author, roots_at, replies_to. intros E Ha Hr Hp.
  apply bind_Ret in E as (did & Edid & E). apply get_path_Ret in Edid. subst did.
  rewrite Ha in E.
  apply bind_Ret in E as (rc & Erc & E). apply get_path_Ret in Erc. subst rc.
  rewrite Hr in E.
  apply bind_Ret in E as (pc & Epc & E). apply get_path_Ret in Epc. subst pc.
  rewrite Hp in E.
  apply bind_Ret in E as (uri & _ & E).
  apply bind_Ret in E as (text & _ & E).
  apply bind_Ret in E as (e & _ & E).
  apply bind_Ret in E as (embed & _ & E).
  apply bind_Ret in E as (f & _ & E).
  apply bind_Ret in E as (facets & _ & E).
  apply bind_Ret in E as (rs & Ers & E). apply get_Ret in Ers as [_ ->].
  apply bind_Ret in E as (more & Emore & E).
  exists {| np_uri := uri; np_text := text; np_embed := embed; np_facets := facets |}.
  cbn zeta.
  assert (Hrec : more = true ->
            self (prop reply "replies") (prop_path reply ["post"; "cid"]) (p ++ [i])
              (visits ++
               [{| v_path := p ++ [i]; v_node := reply;
                   v_post := {| np_uri := uri; np_text := text;
                                np_embed := embed; np_facets := facets |} |}])
            = Ret out).
  { intros ->.
    apply bind_Ret in E as (rs' & Ers' & E). apply get_Ret in Ers' as [_ ->].
    apply bind_Ret in E as (c & Ec & E). apply get_path_Ret in Ec. now subst c. }
  split.
  - destruct more; [right; auto|left; congruence].
  - intros x items Hitems. apply Hrec.
    rewrite Hitems in Emore. cbn [truthy] in Emore.
    apply bind_Ret in Emore as (len & Elen & Emore). apply get_path_Ret in Elen.
    injection Emore as <-. subst len.
    unfold prop_path. cbn [fold_left]. rewrite Hitems. reflexivity.
Qed.

Lemma trace_loop_reaches (thread cid authorDid : value) self (owner pcid : value)
    (p : list nat) (items : list value) :
  yields thread cid authorDid self ->
  reaches thread cid authorDid self ->
  node_at thread p = Some owner ->
  prop owner "replies" = VArr items ->
  forall todo done acc out,
    items = done ++ todo ->
    for_of_from (length done) todo (trace_body self cid authorDid pcid p) acc = Ret out ->
    forall k x q,
      (length done <= k)%nat ->
      nth_error items k = Some x ->
      same_author authorDid x -> roots_at cid x -> replies_to pcid x ->
      admissible cid authorDid x (prop_path x ["post"; "cid"]) q ->
      exists e, In e out /\ v_path e = p ++ k :: q.
Proof.
  intros Hyields Hreaches Hown Hitems todo.
  induction todo as [|x0 todo IH]; intros done acc out Hsplit E k x q Hk Hx Ha Hr Hp Hadm.
  - rewrite app_nil_r in Hsplit. subst done.
    apply nth_error_None in Hk. congruence.
  - simpl in E. apply bind_Ret in E as (acc' & Ebody & E).
    assert (Hnext : items = (done ++ [x0]) ++ todo) by now rewrite <- app_assoc.
    replace (S (length done)) with (length (done ++ [x0])) in E
      by (rewrite length_app; simpl; lia).
    assert (Hx0 : nth_error items (length done) = Some x0).
    { rewrite Hsplit, nth_error_app2 by lia. now rewrite Nat.sub_diag. }
    destruct (trace_loop thread cid authorDid self owner pcid p items
                Hyields Hown Hitems todo (done ++ [x0]) acc' out Hnext E)
      as (new & Hout & _ & _).
    destruct (Nat.eq_dec k (length done)) as [->|Hne].
    + rewrite Hx0 in Hx. injection Hx as ->.
      destruct (trace_body_accepts _ _ _ _ _ _ _ _ _ Ebody Ha Hr Hp)
        as (np & Hcase & Hdeep).
      cbn zeta in Hcase, Hdeep.
      set (e := {| v_path := p ++ [length done]; v_node := x; v_post := np |}) in *.
      assert (Hnode : node_at thread (p ++ [length done]) = Some x)
        by (eapply node_at_snoc; eauto).
      destruct q as [|k' q'].
      * exists e. split; [|reflexivity].
        rewrite Hout. apply in_or_app. left.
        destruct Hcase as [->|Hrec].
        -- apply in_or_app. right. now left.
        -- destruct (Hyields _ _ _ _ _ Hnode Hrec) as (sub & -> & _).
           apply in_or_app. left. apply in_or_app. right. now left.
      * assert (Hrec : self (prop x "replies") (prop_path x ["post"; "cid"])
                         (p ++ [length done]) (acc ++ [e]) = Ret acc').
        { simpl in Hadm.
          destruct (prop x "replies") as [| | | | |its|] eqn:Hits; try contradiction.
          destruct its as [|x' its]; [now destruct k'|].
          eapply Hdeep. reflexivity. }
        destruct (Hreaches _ _ _ _ _ (k' :: q') Hnode Hrec) as (e' & Hin & Hpath);
          [discriminate|exact Hadm|].
        exists e'. split.
        -- rewrite Hout. apply in_or_app. now left.
        -- now rewrite Hpath, <- app_assoc.
    + apply (IH (done ++ [x0]) acc' out Hnext E k x q); auto.
      rewrite length_app. simpl. lia.
Qed.

Lemma traceReplies_reaches (thread cid authorDid : value) (fuel : nat) :
  reaches thread cid authorDid (traceReplies fuel cid authorDid).
Proof.
  induction fuel as [|fuel IH]; intros owner p pc acc out q Hown E Hq Hadm;
    simpl in E; [discriminate|].
  destruct q as [|k q]; [congruence|]. simpl in Hadm.
  destruct (prop owner "replies") as [| | | | |items|] eqn:Hitems; try contradiction.
  destruct (nth_error items k) as [x|] eqn:Hk; [|contradiction].
  destruct Hadm as (Ha & Hr & Hp & Hadm).
  eapply (trace_loop_reaches thread cid authorDid _ owner pc p items
            (traceReplies_yields thread cid authorDid fuel) IH Hown Hitems items []);
    eauto. simpl. lia.
Qed.

(** X1. The thread holds, beside the root, exactly the nodes that can be
    reached from the root through replies that each have the root's author,
    root at the root post and reply to the node whose array holds them. *)
Theorem X1_visited_iff_admissible
    (thread authorDid : value) (out : list NormalizedPost) :
  extractReplies thread authorDid = Ret out ->
  exists tr, traced thread authorDid out tr /\
    forall q, q <> [] ->
      (admissible (prop_path thread ["post"; "cid"]) authorDid thread
         (prop_path thread ["post"; "cid"]) q
       <-> exists e, In e tr /\ v_path e = q).
Proof.
  intros Hout.
  destruct (extractReplies_traced _ _ _ Hout) as (tr & Htraced).
  exists tr. split; [exact Htraced|]. destruct Htraced as (Htr & _ & _).
  intros q Hq. split.
  - intros Hadm. unfold traceThread in Htr.
    apply bind_Ret in Htr as (cid & Ecid & Htr). apply get_path_Ret in Ecid.
    apply bind_Ret in Htr as (rs & Ers & Htr). apply get_Ret in Ers as [_ ->].
    apply bind_Ret in Htr as (pcid & Epcid & Htr). apply get_path_Ret in Epcid.
    subst cid pcid.
    apply (traceReplies_reaches thread _ authorDid _ thread [] _ [] tr q eq_refl Htr Hq Hadm).
  - intros (e & Hin & <-).
    destruct (traceThread_Chain _ _ _ Htr) as [Hc Hok].
    destruct (Chain_admissible _ _ _ _ _ _ Hc Hok thread eq_refl e Hin)
      as (q & _ & -> & Hadm).
    exact Hadm.
Qed.

(** ** The order of the thread *)

Lemma Preorder_weaken (p : list nat) (k0 k1 : nat) (new : list visit) :
  (k0 <= k1)%nat -> Preorder p k1 new -> Preorder p k0 new.
Proof.
  intros Hle Hp.
  inversion Hp as [|e k sub rest Hk Hpath Hsub Hrest Heq]; subst; [constructor|].
  apply (Preorder_cons p k0 e k sub rest); auto. lia.
Qed.

Lemma trace_loop_orders self (pcid cid authorDid : value) (p : list nat) :
  orders self ->
  forall todo i acc out,
    for_of_from i todo (trace_body self cid authorDid pcid p) acc = Ret out ->
    exists new, out = acc ++ new /\ Preorder p i new.
Proof.
  intros Hself todo.
  induction todo as [|x todo IH]; simpl; intros i acc out E.
  - injection E as <-. exists []. rewrite app_nil_r. split; [reflexivity|constructor].
  - apply bind_Ret in E as (acc' & Ebody & E).
    destruct (IH _ _ _ E) as (rest & -> & Hrest).
    apply trace_body_inv in Ebody as [->|(np & _ & _ & _ & _ & Hout)].
    + exists rest. split; [reflexivity|]. eapply Preorder_weaken; [|exact Hrest]. lia.
    + set (e := {| v_path := p ++ [i]; v_node := x; v_post := np |}) in *.
      destruct Hout as [->|Hrec].
      * exists (e :: [] ++ rest). split; [now rewrite <- app_assoc|].
        apply (Preorder_cons p i e i [] rest); auto. constructor.
      * destruct (Hself _ _ _ _ _ Hrec) as (sub & -> & Hsub).
        exists (e :: sub ++ rest). split; [now rewrite <- !app_assoc|].
        apply (Preorder_cons p i e i sub rest); auto.
Qed.

Lemma traceReplies_orders (fuel : nat) (cid authorDid : value) :
  orders (traceReplies fuel cid authorDid).
Proof.
  induction fuel as [|fuel IH]; intros arr pc p acc out E; simpl in E; [discriminate|].
  destruct arr; try (injection E as <-; exists []; rewrite app_nil_r;
                     split; [reflexivity|constructor]).
  eapply trace_loop_orders; eauto.
Qed.

Lemma Preorder_paths (p : list nat) (k0 : nat) (new : list visit) :
  Preorder p k0 new ->
  forall e, In e new -> exists k q, (k0 <= k)%nat /\ v_path e = p ++ k :: q.
Proof.
  intros Hp.
  induction Hp as [|p k0 e0 k sub rest Hk Hpath Hsub IHsub Hrest IHrest]; intros e Hin.
  - destruct Hin.
  - destruct Hin as [<-|Hin]; [exists k, []; auto|].
    apply in_app_or in Hin as [Hin|Hin].
    + destruct (IHsub _ Hin) as (k' & q & _ & ->).
      exists k, (k' :: q). split; [exact Hk|]. now rewrite <- app_assoc.
    + destruct (IHrest _ Hin) as (k' & q & Hk' & ->).
      exists k', q. split; [lia|reflexivity].
Qed.

Lemma path_lt_app (p a b : list nat) : path_lt a b -> path_lt (p ++ a) (p ++ b).
Proof.
  induction p as [|x p IH]; simpl; auto.
Qed.

Lemma Preorder_sorted (p : list nat) (k0 : nat) (new : list visit) :
  Preorder p k0 new ->
  forall (i j : nat) (e1 e2 : visit),
    (i < j)%nat -> new !! i = Some e1 -> new !! j = Some e2 ->
    path_lt (v_path e1) (v_path e2).
Proof.
  intros Hp.
  induction Hp as [|p k0 e0 k sub rest Hk Hpath Hsub IHsub Hrest IHrest];
    intros i j e1 e2 Hij H1 H2.
  - discriminate.
  - destruct j as [|j]; [lia|]. simpl in H2.
    assert (Hin_sub : forall n e, sub !! n = Some e ->
              exists k' q, v_path e = p ++ k :: k' :: q).
    { intros n e He.
      destruct (Preorder_paths _ _ _ Hsub e) as (k' & q & _ & ->).
      { eapply list_elem_of_In, list_elem_of_lookup_2; eauto. }
      exists k', q. now rewrite <- app_assoc. }
    assert (Hin_rest : forall n e, rest !! n = Some e ->
              exists k' q, (k < k')%nat /\ v_path e = p ++ k' :: q).
    { intros n e He.
      destruct (Preorder_paths _ _ _ Hrest e) as (k' & q & Hk' & ->).
      { eapply list_elem_of_In, list_elem_of_lookup_2; eauto. }
      exists k', q. split; [lia|reflexivity]. }
    apply lookup_app_Some in H2 as [H2|[Hlen H2]].
    + destruct i as [|i]; simpl in H1.
      * injection H1 as <-. destruct (Hin_sub _ _ H2) as (k' & q & ->).
        rewrite Hpath. apply path_lt_app. simpl. auto.
      * apply lookup_app_Some in H1 as [H1|[Hlen1 H1]].
        -- apply (IHsub i j); auto. lia.
        -- apply lookup_lt_Some in H2. lia.
    + destruct i as [|i]; simpl in H1.
      * injection H1 as <-. destruct (Hin_rest _ _ H2) as (k2 & q2 & Hk2 & ->).
        rewrite Hpath. apply path_lt_app. simpl. auto.
      * apply lookup_app_Some in H1 as [H1|[Hlen1 H1]].
        -- destruct (Hin_rest _ _ H2) as (k2 & q2 & Hk2 & ->).
           destruct (Hin_sub _ _ H1) as (k' & q & ->). apply path_lt_app. simpl. auto.
        -- apply (IHrest (i - length sub)%nat (j - length sub)%nat); auto. lia.
Qed.

Lemma path_lt_irrefl (p : list nat) : ~ path_lt p p.
Proof. induction p as [|a p IH]; simpl; [auto|]. intros [Hlt|[_ Hp]]; [lia|auto]. Qed.

(** X2. The posts of the thread come in the order of a depth-first walk of
    the reply tree: a node before the nodes below it, and these before the
    nodes under its later siblings; so no node is pushed twice. *)
Theorem X2_thread_in_preorder
    (thread authorDid : value) (out : list NormalizedPost) :
  extractReplies thread authorDid = Ret out ->
  exists tr, traced thread authorDid out tr /\
    (forall (i j : nat) (e1 e2 : visit),
        (i < j)%nat -> tr !! i = Some e1 -> tr !! j = Some e2 ->
        path_lt (v_path e1) (v_path e2)) /\
    NoDup (map v_path tr).
Proof.
  intros Hout.
  destruct (extractReplies_traced _ _ _ Hout) as (tr & Htraced).
  exists tr. split; [exact Htraced|]. destruct Htraced as (Htr & _ & _).
  assert (Hsorted : forall (i j : nat) (e1 e2 : visit),
             (i < j)%nat -> tr !! i = Some e1 -> tr !! j = Some e2 ->
             path_lt (v_path e1) (v_path e2)).
  { unfold traceThread in Htr.
    apply bind_Ret in Htr as (cid & _ & Htr).
    apply bind_Ret in Htr as (rs & _ & Htr).
    apply bind_Ret in Htr as (pcid & _ & Htr).
    destruct (traceReplies_orders _ _ _ _ _ _ _ _ Htr) as (new & Hnew & Hp).
    simpl in Hnew. subst new. eapply Preorder_sorted; eauto. }
  split; [exact Hsorted|].
  apply NoDup_alt. intros i j q Hi Hj.
  apply lookup_map in Hi as (e1 & He1 & ->). apply lookup_map in Hj as (e2 & He2 & Heq).
  destruct (Nat.lt_total i j) as [Hlt|[->|Hlt]]; [|reflexivity|].
  - pose proof (Hsorted _ _ _ _ Hlt He1 He2) as Hp. rewrite Heq in Hp.
    now apply path_lt_irrefl in Hp.
  - pose proof (Hsorted _ _ _ _ Hlt He2 He1) as Hp. rewrite Heq in Hp.
    now apply path_lt_irrefl in Hp.
Qed.

(** ** Where the normaliser and the traversal throw *)

Lemma for_of_each {S : Type} (l : list value) (body : value -> S -> outcome S) :
  forall s out, for_of l body s = Ret out ->
    forall x, In x l -> exists s1 s2, body x s1 = Ret s2.
Proof.
  induction l as [|a l IH]; simpl; intros s out E x Hin; [destruct Hin|].
  apply bind_Ret in E as (s' & Ea & E).
  destruct Hin as [->|Hin]; eauto.
Qed.

Lemma get_path_Ret_readable (ks : list string) :
  forall (o v : value), get_path o ks = Ret v -> readable o ks.
Proof.
  induction ks as [|k ks IH]; simpl; intros o v E; [exact I|].
  apply bind_Ret in E as (o' & E1 & E2).
  apply get_Ret in E1 as [Ho ->]. eauto.
Qed.

Lemma not_Ret_Throw {A : Type} (m : outcome A) :
  finishes m -> (forall a, m <> Ret a) -> m = Throw.
Proof. destruct m; intros Hf Hr; [now destruct (Hr a)|reflexivity|now destruct Hf]. Qed.

(** X3. An item without [post] in the [replies] of the root, as the feed
    gives for a reply that is blocked or gone, makes [extractReplies] throw,
    whatever else the tree holds. *)
Theorem X3_reply_without_post_throws
    (thread authorDid : value) (items : list value) (x : value) :
  prop thread "replies" = VArr items ->
  In x items ->
  nullish (prop x "post") = true ->
  extractReplies thread authorDid = Throw.
Proof.
  intros Hitems Hin Hpost.
  apply not_Ret_Throw; [apply extractReplies_finishes|].
  intros out E. unfold extractReplies in E.
  apply bind_Ret in E as (cid & _ & E).
  apply bind_Ret in E as (rs & Ers & E). apply get_Ret in Ers as [_ ->].
  apply bind_Ret in E as (pcid & _ & E).
  rewrite Hitems in E. cbn [traverseReplies] in E.
  destruct (for_of_each _ _ _ _ E x Hin) as (s1 & s2 & Ebody).
  apply bind_Ret in Ebody as (did & Edid & _).
  simpl in Edid. apply bind_Ret in Edid as (post & Epost & Edid).
  apply get_Ret in Epost as [_ ->].
  apply bind_Ret in Edid as (author & Eauthor & _).
  apply get_Ret in Eauthor as [Hnn _]. congruence.
Qed.



Lemma filter_js_Ret (pred : value -> outcome bool) (l out : list value) :
  (forall d b, pred d = Ret b -> nullish d = false) ->
  filter_js pred l = Ret out -> Forall (fun d => nullish d = false) l.
Proof.
  intros Hp. revert out. induction l as [|a l IH]; simpl; intros out E; [constructor|].
  apply bind_Ret in E as (keep & Ea & E). apply bind_Ret in E as (rest & Erest & _).
  constructor; eauto.
Qed.

Lemma facet_body_Ret (facet : value) (fcts out : list FacetLink) :
  (let* fs := get facet "features" in
   let* features :=
     filter_method fs
       (fun d => let* t := get d "$type" in
                 Ret (strict_eq t (VStr "app.bsky.richtext.facet#link"))) in
   if (0 <? Z.of_nat (length features)) then
     for_of features
       (fun feature fcts =>
          let* uri := get feature "uri" in
          let* byteStart := get_path facet ["index"; "byteStart"] in
          let* byteEnd := get_path facet ["index"; "byteEnd"] in
          Ret (fcts ++ [ {| fl_uri := uri; fl_start := byteStart; fl_end := byteEnd |} ]))
       fcts
   else Ret fcts) = Ret out ->
  facet_wf facet.
Proof.
  intros E.
  apply bind_Ret in E as (fs & Efs & E). apply get_Ret in Efs as [Hfacet ->].
  apply bind_Ret in E as (features & Efeatures & E).
  destruct (prop facet "features") as [| | | | |l|] eqn:Hl; try discriminate.
  cbn [filter_method] in Efeatures.
  assert (Hnn : Forall (fun d => nullish d = false) l).
  { eapply filter_js_Ret; [|exact Efeatures]. intros d b Ed.
    apply bind_Ret in Ed as (t & Et & _). now apply get_Ret in Et as [Hd _]. }
  rewrite (filter_js_links _ Hnn) in Efeatures. injection Efeatures as <-.
  unfold facet_wf, features_of. rewrite Hl.
  split; [exact Hfacet|]. split; [eauto|]. split; [exact Hnn|].
  destruct (List.filter is_link l) as [|feature links]; [now left|right].
  replace (0 <? Z.of_nat (length (feature :: links))) with true in E
    by (symmetry; apply Z.ltb_lt; simpl length; lia).
  cbn [for_of] in E. apply bind_Ret in E as (s' & Ebody & _).
  apply bind_Ret in Ebody as (uri & _ & Ebody).
  apply bind_Ret in Ebody as (byteStart & Hs & _).
  apply get_path_Ret_readable in Hs. simpl in Hs. tauto.
Qed.

(** X5. On an array, [extractFacets] returns only when every facet has an
    array of features without [null] and, if it holds a link, an index; on
    any other array it throws. *)
Theorem X5_extractFacets_throws_unless_wf (facets : list value) :
  (forall out, extractFacets (VArr facets) = Ret out -> Forall facet_wf facets) /\
  (~ Forall facet_wf facets -> extractFacets (VArr facets) = Throw).
Proof.
  assert (Hret : forall out, extractFacets (VArr facets) = Ret out ->
                             Forall facet_wf facets).
  { intros out E. unfold extractFacets in E. cbn [truthy iterate bind] in E.
    apply List.Forall_forall. intros facet Hin.
    destruct (for_of_each _ _ _ _ E facet Hin) as (s1 & s2 & Ebody).
    now apply facet_body_Ret in Ebody. }
  split; [exact Hret|].
  intros Hnot. apply not_Ret_Throw; [apply extractFacets_finishes|].
  intros out E. apply Hnot. eauto.
Qed.

(** ** The store and the requests *)

Lemma fetchThread_store_ok (w : World) (url : string) (st : State) :
  store_ok st -> store_ok (snd (fetchThread w url st)).
Proof.
  intros Hok k r Hk.
  apply fetchThread_stores_success in Hk as [Hk|[_ Hr]]; eauto.
Qed.

(** X6. Through any sequence of requests the store only grows: an entry
    that is there stays as it is, and a store that holds successes only
    still does. *)
Theorem X6_store_only_grows (calls : list (World * string)) (st : State) :
  store_ok st ->
  store_ok (serve calls st) /\
  (forall k r, kv st !! k = Some r -> kv (serve calls st) !! k = Some r).
Proof.
  intros Hok. split; [|intros k r; apply serve_keeps].
  revert st Hok. induction calls as [|[w u] calls IH]; simpl; intros st Hok; [exact Hok|].
  apply IH. now apply fetchThread_store_ok.
Qed.


Lemma reconstruct_without_thread (thread : value) :
  nullish (prop thread "thread") = true -> reconstruct thread = Throw.
Proof.
  intros Hn. unfold reconstruct. simpl get_path at 1.
  unfold get at 1. destruct (nullish thread); [reflexivity|].
  cbn [bind]. unfold get at 1. now rewrite Hn.
Qed.

(** X8. When the page is there but the feed cannot be fetched, or answers
    with something that is not JSON or that has no [thread], the call
    throws after its two requests; no [ErrorResult] is returned. *)
Theorem X8_feed_failure_throws
    (w : World) (url : string) (st : State) (doc : HTMLDocument) :
  kv st !! url = None ->
  fst (fetchHTML w url st) = Some doc ->
  let feed := threadURL (didFromPost (Some doc)) (pop (split_slash url)) in
  (fetch_text w feed = None \/
   exists txt, fetch_text w feed = Some txt /\
               nullish (prop (safeJSONParse w txt) "thread") = true) ->
  fetchThread w url st = (Throw, logged feed (logged url st)).
Proof.
  intros Hmiss Hdoc feed Hfeed. unfold fetchThread. rewrite Hmiss.
  pose proof (fetchHTML_state w url st) as Hst.
  destruct (fetchHTML w url st) as [postDoc st1]. simpl in Hdoc, Hst. subst postDoc st1.
  unfold fetchJSON, fetch. fold feed.
  destruct Hfeed as [->|(txt & -> & Hn)]; [reflexivity|].
  cbn [bind]. now rewrite (reconstruct_without_thread _ Hn).
Qed.

(** X9. A call that misses the cache and succeeds has made two requests,
    for the page and then for the thread of the account the page names and
    of the post named by the last segment of the URL, and has stored its
    result under the URL as given. *)
Theorem X9_success_after_two_requests
    (w : World) (url : string) (st st' : State) (r : Result) :
  kv st !! url = None ->
  fetchThread w url st = (Ret r, st') ->
  message r = "success"%string ->
  exists doc sub,
    fst (fetchHTML w url st) = Some doc /\
    last_segment url sub /\
    requests st' =
      requests st ++
      [url;
       "https://public.api.bsky.app/xrpc/app.bsky.feed.getPostThread?uri=at://"
       +:+ to_string (didFromPost (Some doc)) +:+ "/app.bsky.feed.post/" +:+ sub] /\
    kv st' = <[url := r]> (kv st).
Proof.
  intros Hmiss E Hmsg.
  apply fetchThread_inv in E
    as [[Hhit _]|[(_ & _ & -> & _)|(_ & doc & txt & Hdoc & _ & _ & ->)]].
  - congruence.
  - discriminate.
  - destruct (pop_split_slash url) as (sub & Hpop & Hsub).
    exists doc, sub. split; [exact Hdoc|]. split; [exact Hsub|].
    rewrite Hpop. split; [|reflexivity].
    simpl. now rewrite <- app_assoc.
Qed.

(** X10. Over a store that holds successes only, the handler answers 200
    with a thread, or 400 with [{message: "Error: Invalid URL"}]; it
    answers 400 only when the URL is not cached and the page cannot be
    fetched and parsed, and then the store is as it was. *)
Theorem X10_handler_status
    (w : World) (url : string) (st st' : State) (status : Z) (body : Result) :
  store_ok st ->
  handler w url st = (Ret (status, body), st') ->
  (status = 200 /\ exists author thread, body = ThreadResult author thread) \/
  (status = 400 /\ body = ErrorResult "Error: Invalid URL" /\
   kv st !! url = None /\ fst (fetchHTML w url st) = None /\ kv st' = kv st).
Proof.
  intros Hok. unfold handler.
  destruct (fetchThread w url st) as [[out| |] st1] eqn:E; simpl; try discriminate.
  intros Eh. injection Eh as <- <- <-.
  apply fetchThread_inv in E
    as [[Hhit ->]|[(Hmiss & Hpage & -> & ->)|(_ & doc & txt & _ & _ & Hrec & _)]].
  - destruct (Hok _ _ Hhit) as (author & thread & ->). left. simpl. eauto.
  - right. simpl. auto.
  - apply reconstruct_Ret in Hrec as (e0 & rest & -> & _). left. simpl. eauto.
Qed.

End Further.

(** * The further properties at sample inputs *)

Lemma store_ok_empty : store_ok empty_state.
Proof. intros k r Hk. simpl in Hk. rewrite lookup_empty in Hk. discriminate. Qed.

Lemma X1_witness :
  @extractReplies plain_builtins branching_thread (VStr "A")
  = Ret (map sample_normalized ["C1"; "C3"; "C2"]%string) /\
  exists tr,
    @traced plain_builtins branching_thread (VStr "A")
      (map sample_normalized ["C1"; "C3"; "C2"]%string) tr /\
    forall q, q <> [] ->
      (@admissible plain_builtins (prop_path branching_thread ["post"; "cid"]%string)
         (VStr "A") branching_thread (prop_path branching_thread ["post"; "cid"]%string) q
       <-> exists e, In e tr /\ v_path e = q).
Proof.
  split; [reflexivity|].
  apply (@X1_visited_iff_admissible plain_builtins branching_thread (VStr "A")).
  reflexivity.
Defined.

Lemma X2_witness :
  @extractReplies plain_builtins branching_thread (VStr "A")
  = Ret (map sample_normalized ["C1"; "C3"; "C2"]%string) /\
  exists tr,
    @traced plain_builtins branching_thread (VStr "A")
      (map sample_normalized ["C1"; "C3"; "C2"]%string) tr /\
    (forall (i j : nat) (e1 e2 : visit),
        (i < j)%nat -> tr !! i = Some e1 -> tr !! j = Some e2 ->
        path_lt (v_path e1) (v_path e2)) /\
    NoDup (map v_path tr).
Proof.
  split; [reflexivity|].
  apply (@X2_thread_in_preorder plain_builtins branching_thread (VStr "A")).
  reflexivity.
Defined.

Lemma X3_witness :
  @extractReplies plain_builtins thread_with_blocked_reply (VStr "A") = Throw.
Proof.
  apply (@X3_reply_without_post_throws plain_builtins thread_with_blocked_reply (VStr "A")
           [sample_node "C1" "A" "C0" "C0" [];
            VObj [("$type"%string, VStr "app.bsky.feed.defs#blockedPost");
                  ("uri"%string, VStr "at://X"); ("blocked"%string, VBool true)]]
           (VObj [("$type"%string, VStr "app.bsky.feed.defs#blockedPost");
                  ("uri"%string, VStr "at://X"); ("blocked"%string, VBool true)])).
  - reflexivity.
  - right. left. reflexivity.
  - reflexivity.
Defined.


Lemma X5_witness :
  Forall facet_wf [sample_facet 5 10] /\
  extractFacets (VArr [VObj [("index"%string, VNull)]]) = Throw.
Proof.
  split.
  - apply (proj1 (X5_extractFacets_throws_unless_wf [sample_facet 5 10]) _ eq_refl).
  - apply (proj2 (X5_extractFacets_throws_unless_wf [VObj [("index"%string, VNull)]])).
    intros Hwf. apply Forall_cons in Hwf as [(_ & (features & Hf) & _) _]. discriminate Hf.
Defined.

Lemma X6_witness :
  store_ok empty_state /\
  store_ok (@serve plain_builtins [(world_of branching_thread, sample_url);
                                   (world_offline, sample_url)] empty_state) /\
  (forall k r, kv empty_state !! k = Some r ->
     kv (@serve plain_builtins [(world_of branching_thread, sample_url);
                                (world_offline, sample_url)] empty_state) !! k = Some r).
Proof.
  split; [exact store_ok_empty|].
  apply (@X6_store_only_grows plain_builtins). exact store_ok_empty.
Defined.


Lemma X8_witness :
  kv empty_state !! sample_url = None /\
  fst (fetchHTML world_bad_json sample_url empty_state) = Some page_of_A /\
  @fetchThread plain_builtins world_bad_json sample_url empty_state
  = (Throw, logged sample_feed_url (logged sample_url empty_state)).
Proof.
  split; [reflexivity|]. split; [reflexivity|].
  apply (@X8_feed_failure_throws plain_builtins world_bad_json sample_url empty_state
           page_of_A eq_refl eq_refl).
  right. exists "body"%string. split; reflexivity.
Defined.

Lemma X9_witness :
  kv empty_state !! sample_url = None /\
  @fetchThread plain_builtins (world_of branching_thread) sample_url empty_state
  = (Ret branching_result, branching_state) /\
  message branching_result = "success"%string /\
  exists doc sub,
    fst (fetchHTML (world_of branching_thread) sample_url empty_state) = Some doc /\
    last_segment sample_url sub /\
    requests branching_state =
      requests empty_state ++
      [sample_url;
       "https://public.api.bsky.app/xrpc/app.bsky.feed.getPostThread?uri=at://"
       +:+ @to_string plain_builtins (@didFromPost plain_builtins (Some doc))
       +:+ "/app.bsky.feed.post/" +:+ sub] /\
    kv branching_state = <[sample_url := branching_result]> (kv empty_state).
Proof.
  split; [reflexivity|]. split; [reflexivity|]. split; [reflexivity|].
  apply (@X9_success_after_two_requests plain_builtins (world_of branching_thread)
           sample_url empty_state branching_state branching_result);
    reflexivity.
Defined.

Lemma X10_witness :
  store_ok empty_state /\
  @handler plain_builtins world_offline sample_url empty_state
  = (Ret (400, ErrorResult "Error: Invalid URL"), logged sample_url empty_state) /\
  ((400 = 200 /\ exists author thread, ErrorResult "Error: Invalid URL" = ThreadResult author thread) \/
   (400 = 400 /\ ErrorResult "Error: Invalid URL" = ErrorResult "Error: Invalid URL" /\
    kv empty_state !! sample_url = None /\
    fst (fetchHTML world_offline sample_url empty_state) = None /\
    kv (logged sample_url empty_state) = kv empty_state)).
Proof.
  split; [exact store_ok_empty|]. split; [reflexivity|].
  apply (@X10_handler_status plain_builtins world_offline sample_url empty_state
           (logged sample_url empty_state) 400 (ErrorResult "Error: Invalid URL")
           store_ok_empty).
  reflexivity.
Defined.
